(** * Migration index fixers: the two drizzle migration patchers

    A shallow embedding of
      - [app/backend/scripts/fix_migration_indexes.py]     (one-shot patcher)
      - [app/backend/scripts/fix_all_migration_indexes.py] (error-driven loop)
      - [fix_script.py]                                    (class list repair)
    together with the fragment of Python's [re] and [str] that they call.

    Text is a list of characters.  A file store maps a path to the text
    Python's text mode presents for it.  The external migration runner is a
    section variable: the answer of its k-th invocation. *)

From Stdlib Require Import Ascii String List Bool Arith Lia.
From stdpp Require Import gmap strings list fin_maps.

Import ListNotations.
Local Open Scope list_scope.

(** ** Text *)

Abbreviation str := (list ascii).

(** A string literal of the source, as text. *)
Definition lit (s : string) : str := list_ascii_of_string s.

Definition dq : ascii := "034"%char.
Definition nl : ascii := "010"%char.
Definition comma : ascii := ","%char.
Definition rparen : ascii := ")"%char.
Definition backslash : ascii := "092"%char.

(** [s.startswith(l)], returning what follows [l]. *)
Fixpoint strip_prefix (l s : str) : option str :=
  match l, s with
  | [], _ => Some s
  | a :: l', b :: s' => if Ascii.eqb a b then strip_prefix l' s' else None
  | _ :: _, [] => None
  end.

(** [sub in s]: Python's substring test. *)
Fixpoint contains (sub s : str) : bool :=
  match strip_prefix sub s with
  | Some _ => true
  | None => match s with
            | [] => false
            | _ :: s' => contains sub s'
            end
  end.

(** [sep.join(parts)]. *)
Fixpoint join (sep : str) (parts : list str) : str :=
  match parts with
  | [] => []
  | [p] => p
  | p :: ps => p ++ sep ++ join sep ps
  end.

(** [s.split(sep)] for a one-character separator: never an empty list. *)
Fixpoint split (sep : ascii) (s : str) : list str :=
  match s with
  | [] => [[]]
  | c :: s' =>
      if Ascii.eqb c sep then [] :: split sep s'
      else match split sep s' with
           | h :: t => (c :: h) :: t
           | [] => [[c]]
           end
  end.

(** Characters below 256 for which [str.isspace] holds. *)
Definition is_space (c : ascii) : bool :=
  let n := nat_of_ascii c in
  ((9 <=? n) && (n <=? 13)) || ((28 <=? n) && (n <=? 32))
  || (n =? 133) || (n =? 160).

Fixpoint lstrip (away : ascii -> bool) (s : str) : str :=
  match s with
  | c :: s' => if away c then lstrip away s' else s
  | [] => []
  end.

Definition rstrip (away : ascii -> bool) (s : str) : str :=
  rev (lstrip away (rev s)).

(** [s.strip()] and [s.strip(chars)]. *)
Definition strip_with (away : ascii -> bool) (s : str) : str :=
  rstrip away (lstrip away s).

Definition strip (s : str) : str := strip_with is_space s.
Definition strip_chars (chars : str) (s : str) : str :=
  strip_with (fun c => existsb (Ascii.eqb c) chars) s.

(** [f.readlines()]: the text cut after every newline, newline kept. *)
Fixpoint readlines (s : str) : list str :=
  match s with
  | [] => []
  | c :: s' =>
      if Ascii.eqb c nl then [c] :: readlines s'
      else match readlines s' with
           | l :: ls => (c :: l) :: ls
           | [] => [[c]]
           end
  end.

(** [f.writelines(lines)] writes the concatenation. *)
Definition writelines (lines : list str) : str := concat lines.

(** ** The fragment of [re] the scripts use

    Their patterns are sequences of three kinds of item. *)

Inductive re_item :=
| Lit (l : str)        (* literal text; also what [re.escape] yields *)
| Group (x : ascii)    (* [([^x]+)]: greedy capturing group, one or more characters other than [x] *)
| LazyAny.             (* [.*?] under [re.DOTALL] *)

Abbreviation regex := (list re_item).

(** Captured groups in order, and the input left after the match. *)
Abbreviation re_match := (list str * str)%type.

Section Backtracking.
Context {R : Type}.

(** Greedy [[^x]+]: the longest run first, then shorter ones, never empty. *)
Fixpoint greedy (x : ascii) (k : str -> str -> option R) (s : str) : option R :=
  match s with
  | [] => None
  | c :: s' =>
      if Ascii.eqb c x then None
      else match greedy x (fun g rest => k (c :: g) rest) s' with
           | Some r => Some r
           | None => k [c] s'
           end
  end.

(** Lazy [.*?]: nothing first, then one more character at a time. *)
Fixpoint lazy_skip (k : str -> option R) (s : str) : option R :=
  match k s with
  | Some r => Some r
  | None => match s with
            | [] => None
            | _ :: s' => lazy_skip k s'
            end
  end.
End Backtracking.

(** The backtracking matcher, anchored at the head of [s]. *)
Fixpoint match_here (p : regex) (s : str) : option re_match :=
  match p with
  | [] => Some ([], s)
  | Lit l :: p' =>
      match strip_prefix l s with
      | Some s' => match_here p' s'
      | None => None
      end
  | Group x :: p' =>
      greedy x (fun g rest =>
                  match match_here p' rest with
                  | Some (gs, r) => Some (g :: gs, r)
                  | None => None
                  end) s
  | LazyAny :: p' => lazy_skip (match_here p') s
  end.

(** [re.match(p, s)]. *)
Definition re_match_at_start (p : regex) (s : str) : option re_match :=
  match_here p s.

(** [re.search(p, s)]: the leftmost position where the matcher succeeds. *)
Definition re_search (p : regex) (s : str) : option re_match :=
  lazy_skip (match_here p) s.

(** What a parsed replacement template is: the text to insert for a match,
    given the matched text and its groups. *)
Abbreviation template := (str -> list str -> str).

(** The substitution loop of [re.sub]: matches are taken left to right and do
    not overlap; an empty match is replaced and one character is copied.
    The fuel is the length of the input plus one, and never runs out. *)
Fixpoint re_sub_fuel (fuel : nat) (p : regex) (t : template) (s : str) : str :=
  match fuel with
  | 0 => s
  | S fuel' =>
      match match_here p s with
      | Some (gs, rest) =>
          let out := t (take (length s - length rest) s) gs in
          if length rest <? length s
          then out ++ re_sub_fuel fuel' p t rest
          else match s with
               | [] => out
               | c :: s' => out ++ c :: re_sub_fuel fuel' p t s'
               end
      | None =>
          match s with
          | [] => []
          | c :: s' => c :: re_sub_fuel fuel' p t s'
          end
      end
  end.

Definition re_sub_with (p : regex) (t : template) (s : str) : str :=
  re_sub_fuel (S (length s)) p t s.

Section Substitution.
(** Python's processing of the escapes of a replacement that holds a
    backslash, for a given pattern: [None] when it rejects the replacement
    ([re.error]).  The scripts never rely on it; it stays a parameter. *)
Variable parse_template : regex -> str -> option template.

(** [re.sub(p, repl, s)]: a replacement without backslash is inserted as it
    is; [None] stands for [re.error]. *)
Definition re_sub (p : regex) (repl s : str) : option str :=
  if existsb (Ascii.eqb backslash) repl then
    match parse_template p repl with
    | Some t => Some (re_sub_with p t s)
    | None => None
    end
  else Some (re_sub_with p (fun _ _ => repl) s).
End Substitution.

(** ** How a script ends, and the files it works on *)

Inductive termination :=
| Returned                 (* [main] returns: exit status 0 *)
| SysExit (code : nat)     (* [sys.exit(code)] *)
| Uncaught.                (* an exception nobody catches: traceback, exit status 1 *)

Definition exit_status (t : termination) : nat :=
  match t with
  | Returned => 0
  | SysExit code => code
  | Uncaught => 1
  end.

(** The delimiter drizzle splits a migration file on. *)
Definition breakpoint : str := lit ";--> statement-breakpoint".

(** The marker that opens a conditional block. *)
Definition do_marker : str := lit "DO $$".

Definition create_index_kw : str := lit "CREATE INDEX IF NOT EXISTS".

(** [CREATE INDEX IF NOT EXISTS "idx" ON "tbl" USING btree (cols)], the
    statement both scripts look for, without its delimiter. *)
Definition index_statement (idx tbl cols : str) : str :=
  create_index_kw ++ lit " " ++ [dq] ++ idx ++ [dq] ++ lit " ON " ++ [dq] ++ tbl
    ++ [dq] ++ lit " USING btree (" ++ cols ++ lit ")".

Definition quoted (s : str) : str := [dq] ++ s ++ [dq].

(** ** fix_migration_indexes.py *)

Module FixMigrationIndexes.

(** The pattern of [fix_index_creation]: three groups, the third one the
    whole column list between the parentheses. *)
Definition pattern : regex :=
  [ Lit (create_index_kw ++ lit " " ++ [dq]); Group dq;
    Lit ([dq] ++ lit " ON " ++ [dq]); Group dq;
    Lit ([dq] ++ lit " USING btree ("); Group rparen;
    Lit (lit ")" ++ breakpoint) ].

(** Each piece of [columns.split(',')], stripped of blanks and then of
    double quotes at both ends. *)
Definition column_list (columns : str) : list str :=
  map (fun col => strip_chars [dq] (strip col)) (split comma columns).

Definition condition (col : str) : str :=
  lit "column_name = '" ++ col ++ lit "'".

Definition where_clause (columns : str) : str :=
  join (lit " AND ") (map condition (column_list columns)).

(** The f-string of the source, line by line. *)
Definition block_lines (index_name table_name columns where_clause : str)
  : list str :=
  [ lit "DO $$";
    lit "BEGIN";
    lit "    IF EXISTS (";
    lit "        SELECT 1";
    lit "        FROM information_schema.columns";
    lit "        WHERE table_name = '" ++ table_name ++ lit "'";
    lit "        AND (" ++ where_clause ++ lit ")";
    lit "    ) THEN";
    lit "        CREATE INDEX IF NOT EXISTS " ++ quoted index_name;
    lit "        ON " ++ quoted table_name ++ lit " USING btree (" ++ columns
      ++ lit ");";
    lit "        RAISE NOTICE 'Created index " ++ index_name ++ lit "';";
    lit "    ELSE";
    lit "        RAISE NOTICE 'Column(s) do not exist in " ++ table_name
      ++ lit " table, skipping index creation';";
    lit "    END IF;";
    lit "END$$" ++ breakpoint ].

Definition conditional_block (index_name table_name columns where_clause : str)
  : str :=
  join [nl] (block_lines index_name table_name columns where_clause).

Definition fix_index_creation (line : str) : str :=
  match re_match_at_start pattern line with
  | Some ([index_name; table_name; columns], _) =>
      conditional_block index_name table_name columns (where_clause columns)
  | _ => line
  end.

Definition input_file : string := "drizzle/0027_high_amphibian.sql".
Definition output_file : string := "drizzle/0027_high_amphibian.sql".

(** The state of the [for] loop of [main]. *)
Record loop_state := { skip_next : bool; fixed_lines : list str }.

Definition append (st : loop_state) (l : str) : loop_state :=
  {| skip_next := skip_next st; fixed_lines := fixed_lines st ++ [l] |}.

(** One turn of [for i, line in enumerate(lines)]. *)
Definition body (lines : list str) (i : nat) (line : str) (st : loop_state)
  : loop_state :=
  if skip_next st then {| skip_next := false; fixed_lines := fixed_lines st |}
  else if contains create_index_kw line && negb (contains do_marker line) then
    if (i + 1 <? length lines)
       && match lines !! (i + 1) with
          | Some next => contains do_marker next
          | None => false
          end
    then append st line
    else append st (fix_index_creation line)
  else append st line.

Fixpoint for_enumerate (lines : list str) (i : nat) (todo : list str)
  (st : loop_state) : loop_state :=
  match todo with
  | [] => st
  | line :: todo' => for_enumerate lines (S i) todo' (body lines i line st)
  end.

Definition process (lines : list str) : list str :=
  fixed_lines (for_enumerate lines 0 lines
                 {| skip_next := false; fixed_lines := [] |}).

Inductive message :=
| FixedMigrationFile (path : string).   (* "Fixed migration file: {output_file}" *)

Record run := { ended : termination; files : gmap string str; printed : list message }.

Definition main (fs : gmap string str) : run :=
  match fs !! input_file with
  | None => {| ended := Uncaught; files := fs; printed := [] |}
  | Some content =>
      let lines := readlines content in
      {| ended := Returned;
         files := <[output_file := writelines (process lines)]> fs;
         printed := [FixedMigrationFile output_file] |}
  end.

End FixMigrationIndexes.

(** ** fix_all_migration_indexes.py *)

Module FixAllMigrationIndexes.

(** The pattern of [extract_error_info], searched under [re.DOTALL]. *)
Definition pattern : regex :=
  [ Lit (lit "column " ++ [dq]); Group dq;
    Lit ([dq] ++ lit " does not exist"); LazyAny;
    Lit (create_index_kw ++ lit " " ++ [dq]); Group dq;
    Lit ([dq] ++ lit " ON " ++ [dq]); Group dq;
    Lit ([dq] ++ lit " USING btree (" ++ [dq]); Group dq;
    Lit ([dq] ++ lit ")") ].

(** Returns [(column_name, index_name, table_name)], or three [None]. *)
Definition extract_error_info (output : str)
  : option str * option str * option str :=
  match re_search pattern output with
  | Some ([column_name; index_name; table_name; _], _) =>
      (Some column_name, Some index_name, Some table_name)
  | _ => (None, None, None)
  end.

Definition migration_file : string := "drizzle/0027_high_amphibian.sql".

(** The pattern of [fix_index_in_migration]: the three names go through
    [re.escape], so the whole pattern is one literal. *)
Definition statement (index_name table_name column_name : str) : str :=
  index_statement index_name table_name (quoted column_name) ++ breakpoint.

Definition target (index_name table_name column_name : str) : regex :=
  [ Lit (statement index_name table_name column_name) ].

(** The replacement f-string of the source, line by line. *)
Definition replacement_lines (index_name table_name column_name : str)
  : list str :=
  [ lit "DO $$";
    lit "BEGIN";
    lit "    IF EXISTS (";
    lit "        SELECT 1";
    lit "        FROM information_schema.columns";
    lit "        WHERE table_name = '" ++ table_name ++ lit "'";
    lit "        AND column_name = '" ++ column_name ++ lit "'";
    lit "    ) THEN";
    lit "        CREATE INDEX IF NOT EXISTS " ++ quoted index_name;
    lit "        ON " ++ quoted table_name ++ lit " USING btree ("
      ++ quoted column_name ++ lit ");";
    lit "        RAISE NOTICE 'Created index " ++ index_name ++ lit "';";
    lit "    ELSE";
    lit "        RAISE NOTICE 'Column " ++ column_name ++ lit " does not exist in "
      ++ table_name ++ lit " table, skipping index creation';";
    lit "    END IF;";
    lit "END$$" ++ breakpoint ].

Definition replacement (index_name table_name column_name : str) : str :=
  join [nl] (replacement_lines index_name table_name column_name).

(** What the script prints, one constructor per [print]. *)
Inductive message :=
| Attempt (attempt : nat)                       (* Attempt {attempt}... *)
| MigrationCompleted                            (* Migration completed successfully! *)
| FoundError (column_name table_name : str)     (* Found error: column ... does not exist in table ... *)
| FixingIndex (index_name : str)                (* Fixing index ... *)
| FixedIndex (index_name table_name column_name : str)  (* Fixed index {index_name} on {table_name}.{column_name} *)
| CouldNotExtract                               (* Could not extract error information. Full output: *)
| UnexpectedError                               (* Unexpected error. Full output: *)
| FullOutput (output : str)                     (* print(output) *)
| ReachedMaximum (max_attempts : nat).          (* Reached maximum attempts ({max_attempts}). Please check manually. *)

Record world := { files : gmap string str; printed : list message }.

Definition print (m : message) (w : world) : world :=
  {| files := files w; printed := printed w ++ [m] |}.

Record run := { ended : termination; final : world; attempts : nat }.

Definition max_attempts : nat := 50.

Definition success_1 : str := lit "Migrations completed successfully".
Definition success_2 : str := lit "No migrations to apply".
Definition error_marker : str := lit "ERROR: Error running migrations".

(** Python's truth value of a group or [None]. *)
Definition truthy (v : option str) : bool :=
  match v with
  | Some (_ :: _) => true
  | _ => false
  end.

Definition text (v : option str) : str := default [] v.

Section Runner.
Variable parse_template : regex -> str -> option template.

(** [run_migration()], the k-th time it is called: the captured
    [stdout + stderr], or [None] when [subprocess.run] raises (timeout
    after 300 seconds, no npm). *)
Variable run_migration : nat -> option str.

(** [None]: an exception ([open] on a missing file, [re.error]). *)
Definition fix_index_in_migration (table_name column_name index_name : str)
  (w : world) : option world :=
  match files w !! migration_file with
  | None => None
  | Some content =>
      match re_sub parse_template (target index_name table_name column_name)
              (replacement index_name table_name column_name) content with
      | None => None
      | Some new_content =>
          Some (print (FixedIndex index_name table_name column_name)
                  {| files := <[migration_file := new_content]> (files w);
                     printed := printed w |})
      end
  end.

(** The [while attempt < max_attempts] loop; [remaining] is
    [max_attempts - attempt]. *)
Fixpoint while_loop (remaining attempt : nat) (w : world) : run :=
  match remaining with
  | 0 =>
      {| ended := SysExit 1;
         final := print (ReachedMaximum max_attempts) w;
         attempts := attempt |}
  | S remaining' =>
      let attempt := attempt + 1 in
      let w := print (Attempt attempt) w in
      match run_migration attempt with
      | None => {| ended := Uncaught; final := w; attempts := attempt |}
      | Some output =>
          if contains success_1 output || contains success_2 output then
            {| ended := Returned; final := print MigrationCompleted w;
               attempts := attempt |}
          else if contains error_marker output then
            let '(column_name, index_name, table_name) :=
              extract_error_info output in
            if truthy column_name && truthy index_name && truthy table_name
            then
              let w := print (FoundError (text column_name) (text table_name)) w in
              let w := print (FixingIndex (text index_name)) w in
              match fix_index_in_migration (text table_name)
                      (text column_name) (text index_name) w with
              | Some w => while_loop remaining' attempt w
              | None => {| ended := Uncaught; final := w; attempts := attempt |}
              end
            else
              {| ended := SysExit 1;
                 final := print (FullOutput output) (print CouldNotExtract w);
                 attempts := attempt |}
          else
            {| ended := SysExit 1;
               final := print (FullOutput output) (print UnexpectedError w);
               attempts := attempt |}
      end
  end.

Definition main (w : world) : run := while_loop max_attempts 0 w.
End Runner.

End FixAllMigrationIndexes.

(** ** fix_script.py *)

(** [s.replace(old, new)]: every occurrence of [old], left to right and
    without overlap, as the substitution of the literal does it. *)
Definition str_replace (old new s : str) : str :=
  re_sub_with [Lit old] (fun _ _ => new) s.

Module FixScript.
Definition path : string :=
  "app/frontend/src/components/Marketplace/Dashboard/SellerDashboard.tsx".
Definition old : str := lit "to-br" ++ [nl] ++ lit " from".
Definition new : str := lit "to-br from".

Record run := { ended : termination; files : gmap string str }.

(** The script: read, replace, write back. *)
Definition main (fs : gmap string str) : run :=
  match fs !! path with
  | None => {| ended := Uncaught; files := fs |}
  | Some content =>
      {| ended := Returned;
         files := <[path := str_replace old new content]> fs |}
  end.
End FixScript.

(** * Vocabulary of the statements *)

(** What it means for [p] to match a prefix of [s] with groups [gs], leaving
    [r]: the declarative reading of the three items, with no priorities. *)
Fixpoint matches (p : regex) (s : str) (gs : list str) (r : str) : Prop :=
  match p with
  | [] => gs = [] /\ r = s
  | Lit l :: p' => exists s', s = l ++ s' /\ matches p' s' gs r
  | Group x :: p' =>
      exists g gs' s',
        s = g ++ s' /\ g <> [] /\ (x ∉ g) /\ gs = g :: gs' /\ matches p' s' gs' r
  | LazyAny :: p' => exists pre s', s = pre ++ s' /\ matches p' s' gs r
  end.

(** A quoted SQL name as the patterns capture it: not empty, no double quote. *)
Definition name (n : str) : Prop := n <> [] /\ (dq ∉ n).

(** A line that opens with a [CREATE INDEX IF NOT EXISTS] statement and its
    delimiter, whatever is between the parentheses. *)
Definition index_line (line : str) : Prop :=
  exists idx tbl cols rest,
    line = index_statement idx tbl cols ++ breakpoint ++ rest
    /\ name idx /\ name tbl /\ cols <> [] /\ (rparen ∉ cols).



(** Whether a next line exists and holds the [DO $$] marker. *)
Definition marked (next : option str) : bool :=
  match next with
  | Some n => contains do_marker n
  | None => false
  end.

(** What the loop of the one-shot [main] appends for [line], given the line
    that follows it, if any. *)
Definition keep_or_fix (line : str) (next : option str) : str :=
  if contains create_index_kw line && negb (contains do_marker line) then
    if marked next then line else FixMigrationIndexes.fix_index_creation line
  else line.

(** The loop of the one-shot [main], read as a recursion over the lines that
    are left. *)
Fixpoint rewrite_lines (lines : list str) : list str :=
  match lines with
  | [] => []
  | line :: rest => keep_or_fix line (head rest) :: rewrite_lines rest
  end.

(** The whole-file rewrite of the one-shot [main]. *)
Definition patch (content : str) : str :=
  writelines (FixMigrationIndexes.process (readlines content)).

(** A line [readlines] yields: text without newline, then one newline; the
    last line of a file may lack the newline. *)
Definition complete_line (l : str) : Prop := exists b, l = b ++ [nl] /\ (nl ∉ b).
Definition open_line (l : str) : Prop := l <> [] /\ (nl ∉ l).

Inductive file_lines : list str -> Prop :=
| file_lines_nil : file_lines []
| file_lines_last l : open_line l -> file_lines [l]
| file_lines_cons l ls : complete_line l -> file_lines ls -> file_lines (l :: ls).

(** A line the statement rewriter leaves alone. *)
Definition inert (l : str) : Prop := FixMigrationIndexes.fix_index_creation l = l.

(** A text whose lines a second pass of the loop leaves as they are. *)
Definition settled (d : str) : Prop :=
  rewrite_lines (readlines d) = readlines d.

(** The last line of a conditional block. *)
Definition block_end : str := lit "END$$" ++ breakpoint.

(** A migration file of three lines, the second already followed by a marker. *)
Definition sample_file : str :=
  index_statement (lit "idx_a") (lit "users") (quoted (lit "email"))
    ++ breakpoint ++ [nl]
  ++ index_statement (lit "idx_b") (lit "users") (quoted (lit "name"))
    ++ breakpoint ++ [nl]
  ++ lit "DO $$ already" ++ [nl].


(** [column "col" does not exist]: the error the migration runner reports. *)
Definition error_phrase (col : str) : str :=
  lit "column " ++ quoted col ++ lit " does not exist".

(** The output [s] holds the known failure pattern: after [pre] the error
    phrase for [col], then [mid], then the single-column index statement for
    [idx], [tbl] and [c], then [post]. *)
Definition failure_at (s pre col mid idx tbl c post : str) : Prop :=
  s = pre ++ error_phrase col ++ mid ++ index_statement idx tbl (quoted c) ++ post
  /\ name col /\ name idx /\ name tbl /\ name c.

(** The items of the search pattern behind its lazy gap. *)
Definition statement_pattern : regex :=
  [ Lit (create_index_kw ++ lit " " ++ [dq]); Group dq;
    Lit ([dq] ++ lit " ON " ++ [dq]); Group dq;
    Lit ([dq] ++ lit " USING btree (" ++ [dq]); Group dq;
    Lit ([dq] ++ lit ")") ].

(** An attempt that failed with the known signature for [col], [idx], [tbl]. *)
Definition known_failure (output col idx tbl : str) : Prop :=
  contains FixAllMigrationIndexes.success_1 output = false
  /\ contains FixAllMigrationIndexes.success_2 output = false
  /\ contains FixAllMigrationIndexes.error_marker output = true
  /\ FixAllMigrationIndexes.extract_error_info output
     = (Some col, Some idx, Some tbl).

(** Sample outputs of the migration runner. *)
Definition failure_output (col idx tbl : str) : str :=
  lit "ERROR: Error running migrations" ++ [nl]
  ++ error_phrase col ++ [nl]
  ++ index_statement idx tbl (quoted col) ++ lit ";".

(** Between the phrase and the statement it belongs to, another statement. *)
Definition two_statement_output : str :=
  error_phrase (lit "foo") ++ lit " in "
  ++ index_statement (lit "idx_other") (lit "baz") (quoted (lit "qux")) ++ lit "; "
  ++ index_statement (lit "idx_foo") (lit "bar") (quoted (lit "foo")).

(** A template parser that rejects everything, to instantiate the parameter. *)
Definition no_template : regex -> str -> option template := fun _ _ => None.

(** The k-th run of the migration fails with the known signature, for names
    the repair can take as they are. *)
Definition repairable (run_migration : nat -> option str) (k : nat) : Prop :=
  exists output col idx tbl,
    run_migration k = Some output /\ known_failure output col idx tbl
    /\ (backslash ∉ col) /\ (backslash ∉ idx) /\ (backslash ∉ tbl).

Definition sample_output : str :=
  failure_output (lit "foo") (lit "idx_foo") (lit "bar").

(** A runner that fails the same way every time. *)
Definition always_failing : nat -> option str := fun _ => Some sample_output.

(** A runner that succeeds at once. *)
Definition nothing_to_apply : nat -> option str :=
  fun _ => Some (lit "No migrations to apply").


Definition sample_world : FixAllMigrationIndexes.world :=
  {| FixAllMigrationIndexes.files :=
       {[ FixAllMigrationIndexes.migration_file := lit "SELECT 1;" ]};
     FixAllMigrationIndexes.printed := [] |}.




(** The number an [Attempt] message announces. *)
Definition attempt_number (m : FixAllMigrationIndexes.message) : option nat :=
  match m with
  | FixAllMigrationIndexes.Attempt k => Some k
  | _ => None
  end.

(** The k-th run fails with the known signature for a statement that the
    text [content] does not hold as the repair looks for it. *)
Definition futile (run_migration : nat -> option str) (content : str) (k : nat)
  : Prop :=
  exists output col idx tbl,
    run_migration k = Some output /\ known_failure output col idx tbl
    /\ (backslash ∉ col) /\ (backslash ∉ idx) /\ (backslash ∉ tbl)
    /\ contains (FixAllMigrationIndexes.statement idx tbl col) content = false.

(** A runner that fails twice with the known signature and then succeeds. *)
Definition third_time_lucky : nat -> option str :=
  fun k => if k <? 3 then Some sample_output
           else Some (lit "Migrations completed successfully").

(** Every name the runner's outputs lead to is free of backslashes, so that
    the replacement text is inserted as it is. *)
Definition plain_names (run_migration : nat -> option str) : Prop :=
  forall k output col idx tbl,
    run_migration k = Some output ->
    FixAllMigrationIndexes.extract_error_info output
    = (Some col, Some idx, Some tbl) ->
    (backslash ∉ col) /\ (backslash ∉ idx) /\ (backslash ∉ tbl).

(** A runner that cannot be started. *)
Definition no_npm : nat -> option str := fun _ => None.

(** A file store without the migration file, nothing printed yet. *)
Definition empty_world : FixAllMigrationIndexes.world :=
  {| FixAllMigrationIndexes.files := ∅; FixAllMigrationIndexes.printed := [] |}.

(** * Facts about the text and pattern primitives *)

Lemma strip_prefix_app l s : strip_prefix l (l ++ s) = Some s.
Proof.
  induction l as [|a l IH]; simpl; [done|].
  by rewrite Ascii.eqb_refl.
Qed.

Lemma strip_prefix_Some l s r : strip_prefix l s = Some r <-> s = l ++ r.
Proof.
  split; [|intros ->; apply strip_prefix_app].
  revert s; induction l as [|a l IH]; intros [|b s]; simpl; try congruence.
  destruct (Ascii.eqb_spec a b) as [->|]; [|done].
  intros H. by rewrite (IH _ H).
Qed.

Lemma contains_unfold sub s :
  contains sub s =
  match strip_prefix sub s with
  | Some _ => true
  | None => match s with [] => false | _ :: s' => contains sub s' end
  end.
Proof. by destruct s. Qed.

Lemma contains_true sub s :
  contains sub s = true <-> exists a b, s = a ++ sub ++ b.
Proof.
  split.
  - induction s as [|c s IH]; rewrite contains_unfold.
    + destruct (strip_prefix sub []) as [r|] eqn:E; [|done].
      apply strip_prefix_Some in E. intros _. by exists [], r.
    + destruct (strip_prefix sub (c :: s)) as [r|] eqn:E.
      * apply strip_prefix_Some in E. intros _. by exists [], r.
      * intros H. destruct (IH H) as (a & b & ->). by exists (c :: a), b.
  - intros (a & b & ->). induction a as [|c a IH]; simpl app;
      rewrite contains_unfold.
    + by rewrite strip_prefix_app.
    + rewrite IH. by destruct (strip_prefix sub _).
Qed.

Lemma contains_false sub s :
  contains sub s = false <-> forall a b, s <> a ++ sub ++ b.
Proof.
  rewrite <- not_true_iff_false, contains_true. split.
  - intros H a b ->. apply H. eauto.
  - intros H (a & b & ->). by apply (H a b).
Qed.

Section BacktrackingFacts.
Context {R : Type}.
Implicit Types (k : str -> str -> option R) (f : str -> option R).
Implicit Types (g s rest pre : str).

Lemma greedy_sound x k s r :
  greedy x k s = Some r ->
  exists g rest, s = g ++ rest /\ g <> [] /\ (x ∉ g) /\ k g rest = Some r.
Proof.
  revert k; induction s as [|c s IH]; intros k; simpl; [done|].
  destruct (Ascii.eqb_spec c x) as [->|Hc]; [done|].
  destruct (greedy x _ s) as [r'|] eqn:E.
  - intros [= ->]. apply IH in E as (g & rest & -> & Hg & Hx & Hk).
    exists (c :: g), rest. repeat split; [done| |done].
    apply not_elem_of_cons. split; [congruence|done].
  - intros Hk. exists [c], s. repeat split; [done| |done].
    apply not_elem_of_cons. split; [congruence|]. apply not_elem_of_nil.
Qed.

(** The run that stops at [x], or at the end of the input, is tried first. *)
Lemma greedy_longest x k g rest r :
  g <> [] -> x ∉ g -> (rest = [] \/ exists t, rest = x :: t) ->
  k g rest = Some r -> greedy x k (g ++ rest) = Some r.
Proof.
  revert k; induction g as [|c g IH]; intros k Hg Hx Hstop Hk; [done|].
  apply not_elem_of_cons in Hx as [Hc Hx]. simpl.
  destruct (Ascii.eqb_spec c x) as [->|_]; [done|].
  destruct g as [|c' g].
  - simpl. destruct Hstop as [->|[t ->]]; simpl; [done|].
    by rewrite Ascii.eqb_refl.
  - by rewrite (IH (fun g0 rest0 => k (c :: g0) rest0)).
Qed.

Lemma greedy_complete x k g rest r :
  g <> [] -> x ∉ g -> k g rest = Some r ->
  exists r', greedy x k (g ++ rest) = Some r'.
Proof.
  revert k; induction g as [|c g IH]; intros k Hg Hx Hk; [done|].
  apply not_elem_of_cons in Hx as [Hc Hx]. simpl.
  destruct (Ascii.eqb_spec c x) as [->|_]; [done|].
  destruct g as [|c' g].
  - simpl. destruct (greedy x _ rest); eauto.
  - destruct (IH (fun g0 rest0 => k (c :: g0) rest0)) as [r' ->]; eauto.
Qed.

Lemma lazy_skip_sound f s r :
  lazy_skip f s = Some r ->
  exists pre rest, s = pre ++ rest /\ f rest = Some r
    /\ forall a b, pre = a ++ b -> b <> [] -> f (b ++ rest) = None.
Proof.
  induction s as [|c s IH]; simpl.
  - destruct (f []) eqn:E; [|done]. intros [= ->]. exists [], [].
    repeat split; [done|]. intros a b H. by destruct a, b.
  - destruct (f (c :: s)) eqn:E.
    + intros [= ->]. exists [], (c :: s). repeat split; [done|].
      intros a b H. by destruct a, b.
    + intros H. destruct (IH H) as (pre & rest & -> & Hf & Hfirst).
      exists (c :: pre), rest. repeat split; [done|].
      intros [|a0 a] b Hab Hb; simpl in Hab.
      * subst b. done.
      * injection Hab as -> ->. by apply (Hfirst a b).
Qed.

Lemma lazy_skip_first f pre rest :
  (forall a b, pre = a ++ b -> b <> [] -> f (b ++ rest) = None) ->
  lazy_skip f (pre ++ rest) = lazy_skip f rest.
Proof.
  induction pre as [|c pre IH]; intros H; [done|].
  pose proof (H [] (c :: pre) eq_refl ltac:(done)) as H0.
  simpl in *. rewrite H0.
  apply IH. intros a b -> Hb. by apply (H (c :: a) b).
Qed.

Lemma lazy_skip_here f s r : f s = Some r -> lazy_skip f s = Some r.
Proof. intros H. destruct s; simpl; by rewrite H. Qed.

Lemma lazy_skip_complete f pre rest r :
  f rest = Some r -> exists r', lazy_skip f (pre ++ rest) = Some r'.
Proof.
  intros H. induction pre as [|c pre [r' IH]]; simpl.
  - exists r. by apply lazy_skip_here.
  - destruct (f (c :: pre ++ rest)); eauto.
Qed.

Lemma lazy_skip_None f s :
  lazy_skip f s = None <-> forall pre rest, s = pre ++ rest -> f rest = None.
Proof.
  split.
  - intros H pre rest ->. destruct (f rest) as [r|] eqn:E; [|done].
    destruct (lazy_skip_complete f pre rest r E) as [r' Hr]. congruence.
  - intros H. destruct (lazy_skip f s) as [r|] eqn:E; [|done].
    apply lazy_skip_sound in E as (pre & rest & -> & Hf & _).
    rewrite (H pre rest) in Hf; done.
Qed.
End BacktrackingFacts.

(** The matcher only answers with a match. *)
Lemma match_here_sound p s gs r :
  match_here p s = Some (gs, r) -> matches p s gs r.
Proof.
  revert s gs r; induction p as [|[l|x|] p IH]; intros s gs r; simpl.
  - by intros [= <- <-].
  - destruct (strip_prefix l s) as [s'|] eqn:E; [|done].
    apply strip_prefix_Some in E as ->. intros H. exists s'. eauto.
  - intros H. apply greedy_sound in H as (g & rest & -> & Hg & Hx & Hk).
    destruct (match_here p rest) as [[gs' r']|] eqn:E; [|done].
    injection Hk as <- <-. exists g, gs', rest. eauto 10.
  - intros H. apply lazy_skip_sound in H as (pre & rest & -> & Hf & _).
    exists pre, rest. eauto.
Qed.

(** Whenever there is a match, the matcher finds one. *)
Lemma match_here_complete p s gs r :
  matches p s gs r -> exists gs' r', match_here p s = Some (gs', r').
Proof.
  revert s gs r; induction p as [|[l|x|] p IH]; intros s gs r; simpl.
  - intros [-> ->]. eauto.
  - intros (s' & -> & H). rewrite strip_prefix_app. eauto.
  - intros (g & gs' & s' & -> & Hg & Hx & -> & H).
    destruct (IH _ _ _ H) as (gs1 & r1 & E).
    destruct (greedy_complete x
                (fun g rest => match match_here p rest with
                               | Some (gs, r) => Some (g :: gs, r)
                               | None => None
                               end) g s' (g :: gs1, r1) Hg Hx) as [[gs2 r2] E2].
    { by rewrite E. }
    eauto.
  - intros (pre & s' & -> & H). destruct (IH _ _ _ H) as (gs1 & r1 & E).
    destruct (lazy_skip_complete (match_here p) pre s' _ E) as [[gs2 r2] E2].
    eauto.
Qed.

Lemma match_here_None p s :
  match_here p s = None <-> forall gs r, ~ matches p s gs r.
Proof.
  split.
  - intros H gs r Hm. apply match_here_complete in Hm as (? & ? & ?). congruence.
  - intros H. destruct (match_here p s) as [[gs r]|] eqn:E; [|done].
    apply match_here_sound in E. by destruct (H gs r).
Qed.

(** A group whose run ends at the excluded character takes exactly that run,
    as soon as the rest of the pattern matches what follows. *)
Lemma match_group x p g rest gs r :
  g <> [] -> x ∉ g -> (rest = [] \/ exists t, rest = x :: t) ->
  match_here p rest = Some (gs, r) ->
  match_here (Group x :: p) (g ++ rest) = Some (g :: gs, r).
Proof.
  intros Hg Hx Hstop H. simpl. apply greedy_longest; [done..|]. by rewrite H.
Qed.

(** * The statement rewriter of the one-shot patcher *)

Lemma free_of_check x s :
  forallb (fun c => negb (Ascii.eqb c x)) s = true -> x ∉ s.
Proof.
  induction s as [|c s IH]; simpl.
  - intros _. apply not_elem_of_nil.
  - intros [Hc Hs]%andb_true_iff. apply not_elem_of_cons. split; [|by apply IH].
    intros ->. by rewrite Ascii.eqb_refl in Hc.
Qed.

Ltac free_of := apply free_of_check; reflexivity.


Section OneShot.
Import FixMigrationIndexes.

Lemma match_lit_strip l p s s' :
strip_prefix l s = Some s' -> match_here (Lit l :: p) s = match_here p s'.
Proof. intros H. simpl. by rewrite H. Qed.

Lemma split_no_sep sep s : sep ∉ s -> split sep s = [s].
Proof.
induction s as [|c s IH]; [done|]. intros [Hc Hs]%not_elem_of_cons. simpl.
destruct (Ascii.eqb_spec c sep); [congruence|]. by rewrite IH.
Qed.


Lemma lstrip_stop away s :
match s with [] => True | c :: _ => away c = false end -> lstrip away s = s.
Proof. destruct s as [|c s]; [done|]. simpl. by intros ->. Qed.

Lemma strip_with_keeps away s c d :
away c = false -> away d = false ->
strip_with away (c :: s ++ [d]) = c :: s ++ [d].
Proof.
intros Hc Hd. unfold strip_with, rstrip. simpl. rewrite Hc.
rewrite (lstrip_stop away (rev (c :: s ++ [d]))).
- apply rev_involutive.
- simpl. rewrite rev_app_distr. simpl. done.
Qed.





Lemma quoted_free x c : x <> dq -> x ∉ c -> x ∉ quoted c.
Proof.
intros Hx Hc. unfold quoted.
rewrite not_elem_of_app, not_elem_of_app, !not_elem_of_cons.
repeat split; try done; apply not_elem_of_nil.
Qed.





Lemma pattern_matches_line idx tbl cols rest :
name idx -> name tbl -> cols <> [] -> rparen ∉ cols ->
re_match_at_start pattern (index_statement idx tbl cols ++ breakpoint ++ rest)
= Some ([idx; tbl; cols], rest).
Proof.
intros [Hi Hiq] [Ht Htq] Hc Hcp.
unfold re_match_at_start, pattern, index_statement.
rewrite <- !app_assoc.
erewrite match_lit_strip; [|reflexivity].
apply match_group; [done|done|right; eexists; reflexivity|].
erewrite match_lit_strip; [|reflexivity].
apply match_group; [done|done|right; eexists; reflexivity|].
erewrite match_lit_strip; [|reflexivity].
apply match_group; [done|done|right; eexists; reflexivity|].
erewrite match_lit_strip; [|reflexivity].
reflexivity.
Qed.

Lemma pattern_match_inv line gs r :
re_match_at_start pattern line = Some (gs, r) ->
exists idx tbl cols,
  gs = [idx; tbl; cols]
  /\ line = index_statement idx tbl cols ++ breakpoint ++ r
  /\ name idx /\ name tbl /\ cols <> [] /\ (rparen ∉ cols).
Proof.
intros H. apply match_here_sound in H. simpl in H.
destruct H as (s1 & -> & idx & gs1 & s2 & -> & Hi & Hiq & -> & H).
destruct H as (s3 & -> & tbl & gs2 & s4 & -> & Ht & Htq & -> & H).
destruct H as (s5 & -> & cols & gs3 & s6 & -> & Hc & Hcp & -> & H).
destruct H as (s7 & -> & -> & ->).
exists idx, tbl, cols. repeat split; try done.
unfold index_statement. by rewrite <- !app_assoc.
Qed.

Lemma fix_index_creation_index_line idx tbl cols rest :
name idx -> name tbl -> cols <> [] -> rparen ∉ cols ->
fix_index_creation (index_statement idx tbl cols ++ breakpoint ++ rest)
= conditional_block idx tbl cols (where_clause cols).
Proof.
intros. unfold fix_index_creation. by rewrite pattern_matches_line.
Qed.

Lemma fix_index_creation_cases line :
(exists idx tbl cols rest,
   line = index_statement idx tbl cols ++ breakpoint ++ rest
   /\ name idx /\ name tbl /\ cols <> [] /\ (rparen ∉ cols)
   /\ fix_index_creation line = conditional_block idx tbl cols (where_clause cols))
\/ (~ index_line line /\ fix_index_creation line = line).
Proof.
unfold fix_index_creation.
destruct (re_match_at_start pattern line) as [[gs r]|] eqn:E.
- left. apply pattern_match_inv in E as (idx & tbl & cols & -> & -> & ?).
  exists idx, tbl, cols, r. tauto.
- right. split; [|done].
  intros (idx & tbl & cols & rest & -> & Hi & Ht & Hc & Hp).
  by rewrite pattern_matches_line in E.
Qed.






(** C8. A line that does not open with a well-formed index statement and its
  delimiter comes back unchanged; no error is signalled, the function
  always returns. *)
Theorem fix_index_creation_passes_other_lines line :
~ index_line line -> fix_index_creation line = line.
Proof.
intros H. destruct (fix_index_creation_cases line) as [Hm|[_ Hl]]; [|done].
destruct Hm as (idx & tbl & cols & rest & ? & ? & ? & ? & ? & _).
destruct H. exists idx, tbl, cols, rest. tauto.
Qed.






(** * The whole-file patcher *)

Lemma body_keep_or_fix lines i line st :
skip_next st = false ->
body lines i line st = append st (keep_or_fix line (lines !! (i + 1))).
Proof.
intros Hs. unfold body, keep_or_fix, marked. rewrite Hs.
destruct (contains create_index_kw line && negb (contains do_marker line)); [|done].
destruct (lines !! (i + 1)) as [next|] eqn:E.
- apply lookup_lt_Some in E. apply Nat.ltb_lt in E. rewrite E. simpl.
  by destruct (contains do_marker next).
- by rewrite andb_false_r.
Qed.

Lemma for_enumerate_spec lines seen todo st :
lines = seen ++ todo -> skip_next st = false ->
fixed_lines (for_enumerate lines (length seen) todo st)
= fixed_lines st ++ rewrite_lines todo.
Proof.
revert seen st; induction todo as [|line todo IH]; intros seen st Hl Hs; simpl.
- by rewrite app_nil_r.
- rewrite body_keep_or_fix by done.
  replace (S (length seen)) with (length (seen ++ [line]))
    by (rewrite length_app; simpl; lia).
  rewrite (IH (seen ++ [line])); [| by rewrite <- app_assoc | done].
  simpl. rewrite <- app_assoc. simpl. do 3 f_equal.
  rewrite Hl, lookup_app_r by lia.
  replace (length seen + 1 - length seen) with 1 by lia.
  simpl. by destruct todo.
Qed.

Lemma process_spec lines : process lines = rewrite_lines lines.
Proof. unfold process. by rewrite (for_enumerate_spec lines [] lines). Qed.

Lemma readlines_concat s : concat (readlines s) = s.
Proof.
induction s as [|c s IH]; [done|]. simpl.
destruct (Ascii.eqb_spec c nl) as [->|_]; simpl; [by rewrite IH|].
destruct (readlines s) as [|l ls]; simpl in *; by rewrite <- IH.
Qed.

(** A piece without newline joins the first line of what follows. *)
Lemma readlines_prefix p s :
nl ∉ p ->
readlines (p ++ s) =
match readlines s with
| [] => match p with [] => [] | _ => [p] end
| l :: ls => (p ++ l) :: ls
end.
Proof.
induction p as [|c p IH]; intros Hp; simpl.
- by destruct (readlines s).
- apply not_elem_of_cons in Hp as [Hc Hp].
  destruct (Ascii.eqb_spec c nl); [congruence|]. rewrite (IH Hp).
  destruct (readlines s); [by destruct p|done].
Qed.

Lemma readlines_line b s :
nl ∉ b -> readlines (b ++ nl :: s) = (b ++ [nl]) :: readlines s.
Proof.
intros Hb. by rewrite readlines_prefix.
Qed.

Lemma readlines_lines bs s :
Forall (fun b => nl ∉ b) bs ->
readlines (concat (map (fun b => b ++ [nl]) bs) ++ s)
= map (fun b => b ++ [nl]) bs ++ readlines s.
Proof.
induction 1 as [|b bs Hb _ IH]; [done|]. simpl.
rewrite <- !app_assoc. simpl. rewrite readlines_line by done. by rewrite IH.
Qed.

Lemma readlines_file_lines s : file_lines (readlines s).
Proof.
induction s as [|c s IH]; simpl; [constructor|].
destruct (Ascii.eqb_spec c nl) as [->|Hc].
- apply file_lines_cons; [|done]. exists []. split; [done|apply not_elem_of_nil].
- inversion IH as [E|l [Hl Hn] E|l ls (b & -> & Hb) Hls E].
  + apply file_lines_last. split; [done|].
    apply not_elem_of_cons. split; [done|apply not_elem_of_nil].
  + apply file_lines_last. split; [done|]. by apply not_elem_of_cons.
  + apply file_lines_cons; [|done]. exists (c :: b). split; [done|].
    by apply not_elem_of_cons.
Qed.

Lemma join_snoc_lines ls z :
join [nl] (ls ++ [z]) = concat (map (fun l => l ++ [nl]) ls) ++ z.
Proof.
induction ls as [|l ls IH]; [done|].
change (join [nl] ((l :: ls) ++ [z])) with (join [nl] (l :: (ls ++ [z]))).
destruct (ls ++ [z]) as [|l' ls'] eqn:E; [by destruct ls|].
change (join [nl] (l :: l' :: ls')) with (l ++ [nl] ++ join [nl] (l' :: ls')).
rewrite IH. simpl. by rewrite <- !app_assoc.
Qed.

Lemma keep_or_fix_inert l next : inert l -> keep_or_fix l next = l.
Proof.
intros H. unfold keep_or_fix.
destruct (_ && _); [|done]. by destruct (marked next).
Qed.

Lemma rewrite_lines_inert ms M :
Forall inert ms -> rewrite_lines (ms ++ M) = ms ++ rewrite_lines M.
Proof.
induction 1 as [|m ms Hm _ IH]; [done|]. simpl.
by rewrite keep_or_fix_inert, IH.
Qed.

Lemma strip_prefix_cons a l c s :
strip_prefix (a :: l) (c :: s) = if Ascii.eqb a c then strip_prefix l s else None.
Proof. reflexivity. Qed.

Lemma inert_first c s : c <> "C"%char -> inert (c :: s).
Proof.
intros Hc. unfold inert, fix_index_creation, re_match_at_start, pattern.
assert (strip_prefix (create_index_kw ++ lit " " ++ [dq]) (c :: s) = None) as E.
{ change (create_index_kw ++ lit " " ++ [dq])
    with ("C"%char :: tl (create_index_kw ++ lit " " ++ [dq])).
  rewrite strip_prefix_cons. by destruct (Ascii.eqb_spec "C" c) as [<-|_]. }
cbn [match_here]. by rewrite E.
Qed.

Lemma free_lstrip x away s : x ∉ s -> x ∉ lstrip away s.
Proof.
induction s as [|c s IH]; [done|]. intros H. simpl.
destruct (away c); [|done]. apply IH. by apply not_elem_of_cons in H as [_ H].
Qed.

Lemma free_rev x (s : str) : x ∉ s -> x ∉ rev s.
Proof.
intros H Hr. apply H. apply list_elem_of_In. apply in_rev.
by apply list_elem_of_In.
Qed.

Lemma free_strip_with x away s : x ∉ s -> x ∉ strip_with away s.
Proof.
intros H. unfold strip_with, rstrip.
by apply free_rev, free_lstrip, free_rev, free_lstrip.
Qed.

Lemma free_split x sep s : x ∉ s -> Forall (fun p => x ∉ p) (split sep s).
Proof.
induction s as [|c s IH]; intros H; simpl.
- repeat constructor. apply not_elem_of_nil.
- apply not_elem_of_cons in H as [Hc Hs]. specialize (IH Hs).
  destruct (Ascii.eqb c sep).
  + constructor; [apply not_elem_of_nil|done].
  + destruct (split sep s) as [|h t].
    * repeat constructor. apply not_elem_of_cons. split; [done|apply not_elem_of_nil].
    * inversion IH as [|? ? Hh Ht]; subst. constructor; [|done].
      by apply not_elem_of_cons.
Qed.

Lemma free_join x sep ls :
x ∉ sep -> Forall (fun p => x ∉ p) ls -> x ∉ join sep ls.
Proof.
intros Hsep. induction 1 as [|l ls Hl Hls IH]; [apply not_elem_of_nil|].
destruct ls as [|l' ls]; [done|].
change (join sep (l :: l' :: ls)) with (l ++ sep ++ join sep (l' :: ls)).
rewrite !not_elem_of_app. auto.
Qed.

Lemma free_where_clause cols : nl ∉ cols -> nl ∉ where_clause cols.
Proof.
intros H. unfold where_clause, column_list. apply free_join; [free_of|].
rewrite !Forall_map. eapply Forall_impl; [by apply free_split|].
intros p Hp. simpl. unfold condition. rewrite !not_elem_of_app.
split; [free_of|]. split; [|free_of].
by apply free_strip_with, free_strip_with.
Qed.

Lemma free_block_lines idx tbl cols :
nl ∉ idx -> nl ∉ tbl -> nl ∉ cols ->
Forall (fun l => nl ∉ l) (block_lines idx tbl cols (where_clause cols)).
Proof.
intros Hi Ht Hc. pose proof (free_where_clause cols Hc) as Hw.
unfold block_lines, quoted.
repeat (apply Forall_cons; split;
        [rewrite ?not_elem_of_app; repeat split; first [assumption|free_of]|]).
constructor.
Qed.

Lemma block_end_inert x : inert (block_end ++ x).
Proof. by apply inert_first. Qed.

(** A block spliced into a text: its lines stay, and what follows is read
  after the closing [END$$] and delimiter. *)
Lemma settled_block pfx idx tbl cols w tail :
nl ∉ pfx -> (pfx = [] \/ forall x, inert (pfx ++ x)) ->
Forall (fun l => nl ∉ l) (block_lines idx tbl cols w) ->
settled (block_end ++ tail) ->
settled (pfx ++ conditional_block idx tbl cols w ++ tail).
Proof.
intros Hp Hpfx Hfree Hrest. unfold settled, conditional_block in *.
rewrite (app_removelast_last []
           (l := block_lines idx tbl cols w)) in * by discriminate.
unfold block_lines in *. cbn [removelast List.last] in *.
fold block_end in *.
rewrite join_snoc_lines.
apply Forall_app in Hfree as [Hfree _].
apply Forall_cons in Hfree as [_ Hfree].
match goal with
| |- context [map ?f (?l1 :: ?ls)] =>
    replace (pfx ++ (concat (map f (l1 :: ls)) ++ block_end) ++ tail)
      with (concat (map f ((pfx ++ l1) :: ls)) ++ block_end ++ tail)
      by (cbn [map concat]; by rewrite <- !app_assoc);
    assert (Forall inert (map f ((pfx ++ l1) :: ls))) as Hinert
end.
{ apply Forall_cons. split.
  - destruct Hpfx as [->|Hpfx]; [by apply inert_first|].
    rewrite <- app_assoc. apply Hpfx.
  - repeat (apply Forall_cons; split; [by apply inert_first|]). constructor. }
rewrite readlines_lines.
- rewrite rewrite_lines_inert by done. by rewrite Hrest.
- apply Forall_cons. split; [|done].
  apply not_elem_of_app. split; [done|free_of].
Qed.

Lemma keep_or_fix_cases l next :
keep_or_fix l next = l
\/ exists idx tbl cols rest,
     l = index_statement idx tbl cols ++ breakpoint ++ rest
     /\ keep_or_fix l next = conditional_block idx tbl cols (where_clause cols).
Proof.
unfold keep_or_fix. destruct (_ && _); [|by left].
destruct (marked next); [by left|].
destruct (fix_index_creation_cases l) as [Hm|[_ Hl]]; [|by left].
destruct Hm as (idx & tbl & cols & rest & ? & _ & _ & _ & _ & ?).
right. by exists idx, tbl, cols, rest.
Qed.

Lemma keep_or_fix_kept l next next' :
keep_or_fix l next = l -> (marked next = true -> marked next' = true) ->
keep_or_fix l next' = l.
Proof.
unfold keep_or_fix. destruct (_ && _); [|done].
destruct (marked next).
- intros _ H. by rewrite H.
- intros H _. by destruct (marked next').
Qed.

Lemma line_prefix_free l a t rest :
complete_line l \/ open_line l -> l = a ++ t :: rest -> t <> nl -> nl ∉ a.
Proof.
intros [(b & -> & Hb)|[_ Hl]] E Ht.
- destruct (exists_last (l := t :: rest)) as (r & x & Er); [done|].
  rewrite Er, app_assoc in E. apply app_inj_tail in E as [-> <-].
  destruct r as [|t' r]; simpl in Er.
  + destruct rest; [congruence|]. by destruct rest.
  + injection Er as -> _. rewrite not_elem_of_app in Hb. tauto.
- subst l. rewrite not_elem_of_app in Hl. tauto.
Qed.

Lemma line_names_free l idx tbl cols rest :
complete_line l \/ open_line l ->
l = index_statement idx tbl cols ++ breakpoint ++ rest ->
(nl ∉ idx) /\ (nl ∉ tbl) /\ (nl ∉ cols).
Proof.
intros Hl E.
assert (nl ∉ index_statement idx tbl cols ++ lit ";--> statement-breakpoin") as H.
{ apply (line_prefix_free l _ "t"%char rest Hl); [|done].
  rewrite E. unfold breakpoint. rewrite <- !app_assoc. reflexivity. }
unfold index_statement in H. rewrite !not_elem_of_app in H. tauto.
Qed.

Lemma file_lines_head l ls : file_lines (l :: ls) -> complete_line l \/ open_line l.
Proof. inversion 1; auto. Qed.

Lemma file_lines_tail l ls : file_lines (l :: ls) -> file_lines ls.
Proof. inversion 1; [constructor|done]. Qed.

Lemma marked_not_candidate n next :
contains do_marker n = true -> keep_or_fix n next = n.
Proof. intros H. unfold keep_or_fix. rewrite H. by rewrite andb_false_r. Qed.

(** A line with the marker is still the next line after the rewrite. *)
Lemma head_marker ls :
file_lines ls -> marked (head ls) = true ->
marked (head (readlines (concat (rewrite_lines ls)))) = true.
Proof.
destruct ls as [|n ls]; [done|]. intros Hls Hm. simpl in Hm.
simpl. rewrite marked_not_candidate by done.
inversion Hls as [|? [Hn Hfree]|? ? (b & -> & Hb) Hrest]; subst.
- simpl. rewrite app_nil_r.
  replace n with (n ++ []) by apply app_nil_r.
  rewrite readlines_prefix by done. simpl. by destruct n.
- rewrite <- app_assoc. simpl. by rewrite readlines_line.
Qed.

Lemma settled_rewrite ls :
file_lines ls ->
forall pfx, nl ∉ pfx -> (pfx = [] \/ forall x, inert (pfx ++ x)) ->
settled (pfx ++ concat (rewrite_lines ls)).
Proof.
induction ls as [|l ls IH]; intros Hls pfx Hp Hpfx.
- simpl. rewrite app_nil_r. unfold settled.
  replace pfx with (pfx ++ []) at 1 2 by apply app_nil_r.
  rewrite readlines_prefix by done. simpl.
  destruct pfx as [|c pfx]; [done|]. simpl.
  destruct Hpfx as [?|Hpfx]; [done|].
  rewrite keep_or_fix_inert; [done|].
  specialize (Hpfx []). by rewrite app_nil_r in Hpfx.
- pose proof (file_lines_head _ _ Hls) as Hl.
  pose proof (file_lines_tail _ _ Hls) as Hrest.
  simpl. destruct (keep_or_fix_cases l (head ls)) as [Hk|Hk].
  + rewrite Hk. unfold settled.
    inversion Hls as [|? [Hn Hfree]|? ? (b & -> & Hb) _]; subst.
    * simpl. rewrite app_nil_r.
      replace (pfx ++ l) with ((pfx ++ l) ++ []) by apply app_nil_r.
      rewrite readlines_prefix by (by apply not_elem_of_app).
      simpl. destruct (pfx ++ l) as [|c m] eqn:E; [done|]. simpl.
      f_equal. destruct Hpfx as [->|Hpfx].
      -- simpl in E. by rewrite <- E.
      -- rewrite <- E. apply keep_or_fix_inert, Hpfx.
    * rewrite <- app_assoc. simpl.
      rewrite app_assoc, readlines_line by (by apply not_elem_of_app).
      simpl. specialize (IH Hrest [] ltac:(apply not_elem_of_nil) ltac:(by left)).
      simpl in IH. unfold settled in IH. rewrite IH. f_equal.
      destruct Hpfx as [->|Hpfx].
      -- simpl. eapply keep_or_fix_kept; [done|]. by apply head_marker.
      -- rewrite <- app_assoc. apply keep_or_fix_inert, Hpfx.
  + destruct Hk as (idx & tbl & cols & rest & E & ->).
    destruct (line_names_free _ _ _ _ _ Hl E) as (Hi & Ht & Hc).
    apply settled_block; [done|done|by apply free_block_lines|].
    apply IH; [done|free_of|right; apply block_end_inert].
Qed.

Lemma patch_settled c : settled (patch c).
Proof.
unfold patch, writelines. rewrite process_spec.
apply (settled_rewrite _ (readlines_file_lines c) []); [apply not_elem_of_nil|by left].
Qed.

Lemma patch_idempotent c : patch (patch c) = patch c.
Proof.
pose proof (patch_settled c) as H. unfold settled in H.
unfold patch at 1. unfold writelines.
by rewrite process_spec, H, readlines_concat.
Qed.

Lemma index_line_iff line :
index_line line <-> is_Some (re_match_at_start pattern line).
Proof.
split.
- intros (idx & tbl & cols & rest & -> & Hi & Ht & Hc & Hp).
  rewrite pattern_matches_line by done. eauto.
- intros [[gs r] E]. apply pattern_match_inv in E as (idx & tbl & cols & _ & E & ?).
  by exists idx, tbl, cols, r.
Qed.

(** A statement cut before its delimiter is not an index line. *)
Lemma fix_index_creation_passes_other_lines_witness :
fix_index_creation
  (index_statement (lit "idx_a") (lit "users") (quoted (lit "email")) ++ lit ";")
= index_statement (lit "idx_a") (lit "users") (quoted (lit "email")) ++ lit ";".
Proof.
apply fix_index_creation_passes_other_lines.
rewrite index_line_iff. intros [m Hm]. vm_compute in Hm. discriminate Hm.
Defined.

Lemma rewrite_lines_lookup lines i line :
lines !! i = Some line ->
rewrite_lines lines !! i = Some (keep_or_fix line (lines !! (i + 1))).
Proof.
revert i; induction lines as [|l ls IH]; intros [|i] H; simpl in *; try done.
- injection H as ->. by destruct ls.
- by apply IH.
Qed.

(** The names, the column list and the rest of an index line are determined
  by the line: it has one conditional block. *)
Lemma index_statement_unique idx tbl cols rest idx' tbl' cols' rest' :
name idx -> name tbl -> cols <> [] -> rparen ∉ cols ->
name idx' -> name tbl' -> cols' <> [] -> rparen ∉ cols' ->
index_statement idx tbl cols ++ breakpoint ++ rest
= index_statement idx' tbl' cols' ++ breakpoint ++ rest' ->
idx = idx' /\ tbl = tbl' /\ cols = cols' /\ rest = rest'.
Proof.
intros Hi Ht Hc Hp Hi' Ht' Hc' Hp' E.
pose proof (pattern_matches_line idx tbl cols rest Hi Ht Hc Hp) as M.
rewrite E, (pattern_matches_line idx' tbl' cols' rest') in M by done.
by injection M as -> -> -> ->.
Qed.

Lemma rewrite_lines_in_place lines :
Forall2 (fun line out =>
           out = line
           \/ exists idx tbl cols rest,
                line = index_statement idx tbl cols ++ breakpoint ++ rest
                /\ name idx /\ name tbl /\ cols <> [] /\ (rparen ∉ cols)
                /\ out = conditional_block idx tbl cols (where_clause cols))
  lines (rewrite_lines lines).
Proof.
induction lines as [|l ls IH]; simpl; constructor; [|done].
unfold keep_or_fix. destruct (_ && _); [|by left].
destruct (marked (head ls)); [by left|].
destruct (fix_index_creation_cases l) as [Hm|[_ ->]]; [|by left].
destruct Hm as (idx & tbl & cols & rest & ? & ? & ? & ? & ? & ->).
right. exists idx, tbl, cols, rest. tauto.
Qed.

(** C9. The one-shot patcher keeps the lines of the file in their order: the
  text written is the concatenation, line by line, of either the input line
  itself or the conditional block of that very line, built from the index
  name, the table name and the column list the line declares, which replaces
  it in place; an index line directly followed by a line with the [DO $$]
  marker is kept as it is; the result goes to the path the text was read
  from. *)
Theorem main_keeps_line_order (fs : gmap string str) content :
fs !! input_file = Some content ->
let lines := readlines content in
let out := process lines in
concat lines = content
/\ ended (main fs) = Returned
/\ files (main fs) = <[input_file := concat out]> fs
/\ Forall2 (fun line o =>
              o = line
              \/ exists idx tbl cols rest,
                   line = index_statement idx tbl cols ++ breakpoint ++ rest
                   /\ name idx /\ name tbl /\ cols <> [] /\ (rparen ∉ cols)
                   /\ o = conditional_block idx tbl cols (where_clause cols))
     lines out
/\ forall i line next,
     lines !! i = Some line -> lines !! (i + 1) = Some next ->
     contains do_marker next = true -> out !! i = Some line.
Proof.
intros Hfs lines out. unfold main. rewrite Hfs. cbn [ended files].
split; [apply readlines_concat|]. split; [done|]. split; [done|].
unfold out. rewrite process_spec. split; [apply rewrite_lines_in_place|].
intros i line next Hi Hn Hm.
rewrite (rewrite_lines_lookup _ _ _ Hi), Hn. f_equal.
unfold keep_or_fix. simpl. rewrite Hm. by destruct (_ && _).
Qed.

(** C3. The one-shot patcher is idempotent: run on the file a first run
  left, it leaves the same file; every line of a patched text, the lines of
  each conditional block among them, is kept as it is by the loop. *)
Theorem main_idempotent (fs : gmap string str) :
files (main (files (main fs))) = files (main fs)
/\ forall content,
     process (readlines (patch content)) = readlines (patch content).
Proof.
split.
- unfold main. destruct (fs !! input_file) as [content|] eqn:E; cbn [files].
  + unfold output_file, input_file in *. rewrite lookup_insert_eq. cbn [files].
    rewrite insert_insert_eq. f_equal.
    apply (patch_idempotent content).
  + by rewrite E.
- intros content. rewrite process_spec. apply patch_settled.
Qed.

Lemma main_keeps_line_order_witness :
files (main {[ input_file := sample_file ]})
= <[input_file := concat (process (readlines sample_file))]>
    {[ input_file := sample_file ]}.
Proof.
apply (main_keeps_line_order {[ input_file := sample_file ]} sample_file).
apply lookup_singleton_eq.
Defined.

End OneShot.

(** * Substitution of a literal pattern *)

Lemma match_here_shorter p s gs r :
  match_here p s = Some (gs, r) -> length r <= length s.
Proof.
  intros H%match_here_sound. revert s gs r H.
  induction p as [|[l|x|] p IH]; intros s gs r; simpl.
  - by intros [_ ->].
  - intros (s' & -> & H). apply IH in H. rewrite length_app. lia.
  - intros (g & gs' & s' & -> & _ & _ & _ & H). apply IH in H.
    rewrite length_app. lia.
  - intros (pre & s' & -> & H). apply IH in H. rewrite length_app. lia.
Qed.

(** More fuel than the input is long is as good as any. *)
Lemma re_sub_fuel_enough n m p t s :
  length s < n -> length s < m -> re_sub_fuel n p t s = re_sub_fuel m p t s.
Proof.
  revert m s; induction n as [|n IH]; intros [|m] s Hn Hm; try lia.
  simpl. destruct (match_here p s) as [[gs rest]|] eqn:E.
  - pose proof (match_here_shorter _ _ _ _ E) as Hle.
    destruct (Nat.ltb_spec (length rest) (length s)).
    + f_equal. apply IH; lia.
    + destruct s as [|c s]; [done|]. simpl in *. do 2 f_equal. apply IH; lia.
  - destruct s as [|c s]; [done|]. simpl in *. f_equal. apply IH; lia.
Qed.

Lemma re_sub_with_unfold p t s :
  re_sub_with p t s =
  match match_here p s with
  | Some (gs, rest) =>
      let out := t (take (length s - length rest) s) gs in
      if length rest <? length s
      then out ++ re_sub_with p t rest
      else match s with
           | [] => out
           | c :: s' => out ++ c :: re_sub_with p t s'
           end
  | None =>
      match s with
      | [] => []
      | c :: s' => c :: re_sub_with p t s'
      end
  end.
Proof.
  unfold re_sub_with at 1. cbn [re_sub_fuel].
  destruct (match_here p s) as [[gs rest]|] eqn:E.
  - pose proof (match_here_shorter _ _ _ _ E) as Hle. cbn zeta.
    destruct (Nat.ltb_spec (length rest) (length s)).
    + f_equal. apply re_sub_fuel_enough; lia.
    + by destruct s.
  - by destruct s.
Qed.

(** Substitution of a literal: nothing to do where it does not occur. *)
Lemma re_sub_with_absent l t s :
  l <> [] -> contains l s = false -> re_sub_with [Lit l] t s = s.
Proof.
  intros Hl. induction s as [|c s IH]; intros H; rewrite re_sub_with_unfold;
    rewrite contains_unfold in H; cbn [match_here].
  - by destruct (strip_prefix l []).
  - destruct (strip_prefix l (c :: s)); [done|]. by rewrite IH.
Qed.

(** Substitution of a literal: the leftmost occurrence is replaced, and the
    substitution goes on behind it. *)
Lemma re_sub_with_first l t a b :
  l <> [] ->
  (forall a' b', a ++ l ++ b = a' ++ l ++ b' -> length a <= length a') ->
  re_sub_with [Lit l] t (a ++ l ++ b)
  = a ++ t l [] ++ re_sub_with [Lit l] t b.
Proof.
  intros Hl. induction a as [|c a IH]; intros Hfirst.
  - rewrite re_sub_with_unfold. cbn [match_here app].
    rewrite strip_prefix_app. cbn zeta.
    assert (length b < length (l ++ b)) as Hlt.
    { rewrite length_app. destruct l; [done|]. simpl. lia. }
    apply Nat.ltb_lt in Hlt as Hlt'. rewrite Hlt'.
    replace (length (l ++ b) - length b) with (length l)
      by (rewrite length_app; lia).
    by rewrite take_app_length.
  - rewrite re_sub_with_unfold. cbn [match_here].
    destruct (strip_prefix l ((c :: a) ++ l ++ b)) as [r|] eqn:E.
    + apply strip_prefix_Some in E.
      specialize (Hfirst [] r). simpl in Hfirst. specialize (Hfirst E). lia.
    + simpl. f_equal. apply IH. intros a' b' E'.
      specialize (Hfirst (c :: a') b'). simpl in Hfirst.
      rewrite E' in Hfirst. specialize (Hfirst eq_refl). lia.
Qed.

(** * Extraction of the failing statement *)

Section Extraction.
Import FixAllMigrationIndexes.

Lemma statement_matches idx tbl c post :
  name idx -> name tbl -> name c ->
  match_here statement_pattern (index_statement idx tbl (quoted c) ++ post)
  = Some ([idx; tbl; c], post).
Proof.
  intros [Hi Hiq] [Ht Htq] [Hc Hcq].
  unfold statement_pattern, index_statement, quoted.
  rewrite <- !app_assoc.
  erewrite match_lit_strip; [|reflexivity].
  apply match_group; [done|done|right; eexists; reflexivity|].
  erewrite match_lit_strip; [|reflexivity].
  apply match_group; [done|done|right; eexists; reflexivity|].
  erewrite match_lit_strip; [|reflexivity].
  apply match_group; [done|done|right; eexists; reflexivity|].
  erewrite match_lit_strip; [|reflexivity].
  reflexivity.
Qed.

Lemma statement_match_inv s gs r :
  match_here statement_pattern s = Some (gs, r) ->
  exists idx tbl c,
    gs = [idx; tbl; c] /\ s = index_statement idx tbl (quoted c) ++ r
    /\ name idx /\ name tbl /\ name c.
Proof.
  intros H. apply match_here_sound in H. simpl in H.
  destruct H as (s1 & -> & idx & gs1 & s2 & -> & Hi & Hiq & -> & H).
  destruct H as (s3 & -> & tbl & gs2 & s4 & -> & Ht & Htq & -> & H).
  destruct H as (s5 & -> & c & gs3 & s6 & -> & Hc & Hcq & -> & H).
  destruct H as (s7 & -> & -> & ->).
  exists idx, tbl, c. repeat split; try done.
  unfold index_statement, quoted. by rewrite <- !app_assoc.
Qed.

Lemma pattern_match_at col mid idx tbl c post :
  name col -> name idx -> name tbl -> name c ->
  (forall m1 m2, mid = m1 ++ m2 -> m2 <> [] ->
     match_here statement_pattern
       (m2 ++ index_statement idx tbl (quoted c) ++ post) = None) ->
  match_here pattern
    (error_phrase col ++ mid ++ index_statement idx tbl (quoted c) ++ post)
  = Some ([col; idx; tbl; c], post).
Proof.
  intros [Hcol Hcolq] Hi Ht Hc Hmid.
  unfold pattern, error_phrase, quoted. rewrite <- !app_assoc.
  erewrite match_lit_strip; [|reflexivity].
  apply match_group; [done|done|right; eexists; reflexivity|].
  erewrite match_lit_strip; [|reflexivity].
  change (match_here (LazyAny :: ?p) ?s) with (lazy_skip (match_here p) s).
  fold statement_pattern. rewrite lazy_skip_first by done.
  apply lazy_skip_here. by apply statement_matches.
Qed.

Lemma pattern_search_inv s gs r :
  match_here pattern s = Some (gs, r) ->
  exists col mid idx tbl c,
    gs = [col; idx; tbl; c] /\ failure_at s [] col mid idx tbl c r.
Proof.
  intros H. apply match_here_sound in H. simpl in H.
  destruct H as (s1 & -> & col & gs1 & s2 & -> & Hc & Hcq & -> & H).
  destruct H as (s3 & -> & mid & s4 & -> & H).
  destruct H as (s5 & -> & idx & gs2 & s6 & -> & Hi & Hiq & -> & H).
  destruct H as (s7 & -> & tbl & gs3 & s8 & -> & Ht & Htq & -> & H).
  destruct H as (s9 & -> & c & gs4 & s10 & -> & Hcc & Hccq & -> & H).
  destruct H as (s11 & -> & -> & ->).
  exists col, mid, idx, tbl, c. split; [done|].
  split; [|done]. unfold error_phrase, index_statement, quoted.
  rewrite <- !app_assoc. reflexivity.
Qed.

Lemma extract_error_info_found s gs r :
  re_search pattern s = Some (gs, r) ->
  exists col idx tbl c,
    gs = [col; idx; tbl; c]
    /\ extract_error_info s = (Some col, Some idx, Some tbl).
Proof.
  intros H. unfold extract_error_info. rewrite H.
  apply lazy_skip_sound in H as (pre & rest & -> & H & _).
  apply pattern_search_inv in H as (col & mid & idx & tbl & c & -> & _).
  by exists col, idx, tbl, c.
Qed.

(** What is extracted comes from an occurrence of the failure pattern. *)
Lemma extract_error_info_sound s col idx tbl :
  extract_error_info s = (Some col, Some idx, Some tbl) ->
  exists pre mid c post, failure_at s pre col mid idx tbl c post.
Proof.
  unfold extract_error_info.
  destruct (re_search pattern s) as [[gs r]|] eqn:E; [|done].
  apply lazy_skip_sound in E as (pre & rest & -> & H & _).
  apply pattern_search_inv in H as (col' & mid & idx' & tbl' & c & -> & Hf).
  intros [= -> -> ->]. exists pre, mid, c, r.
  destruct Hf as (-> & ?). split; [done|done].
Qed.

Lemma extract_error_info_cases s :
  extract_error_info s = (None, None, None)
  \/ exists col idx tbl, extract_error_info s = (Some col, Some idx, Some tbl).
Proof.
  destruct (re_search pattern s) as [[gs r]|] eqn:E.
  - apply extract_error_info_found in E as (col & idx & tbl & c & _ & E). eauto.
  - left. unfold extract_error_info. by rewrite E.
Qed.

Lemma extract_error_info_first s pre col mid idx tbl c post :
  failure_at s pre col mid idx tbl c post ->
  (forall pre' col' mid' idx' tbl' c' post',
     failure_at s pre' col' mid' idx' tbl' c' post' ->
     length pre < length pre'
     \/ (length pre = length pre' /\ length mid <= length mid')) ->
  extract_error_info s = (Some col, Some idx, Some tbl).
Proof.
  intros (-> & Hcol & Hi & Ht & Hc) Hmin.
  unfold extract_error_info, re_search.
  rewrite lazy_skip_first.
  - rewrite (lazy_skip_here _ _ ([col; idx; tbl; c], post)); [done|].
    apply pattern_match_at; try done.
    intros m1 m2 -> Hm2.
    destruct (match_here statement_pattern _) as [[gs r]|] eqn:E; [|done].
    apply statement_match_inv in E as (idx' & tbl' & c' & _ & E & Hi' & Ht' & Hc').
    destruct (Hmin pre col m1 idx' tbl' c' r) as [?|[_ Hlen]]; [|lia|].
    + split; [|done]. by rewrite <- app_assoc, E.
    + rewrite length_app in Hlen. destruct m2; [done|]. simpl in Hlen. lia.
  - intros a b -> Hb.
    destruct (match_here pattern _) as [[gs r]|] eqn:E; [|done].
    apply pattern_search_inv in E as (col' & mid' & idx' & tbl' & c' & _ & E & Hn).
    destruct (Hmin a col' mid' idx' tbl' c' r) as [Hlen|[Hlen _]].
    + split; [|done]. by rewrite <- app_assoc, E.
    + rewrite length_app in Hlen. lia.
    + rewrite length_app in Hlen. destruct b; [done|]. simpl in Hlen. lia.
Qed.

Lemma extract_error_info_none s :
  (forall pre col mid idx tbl c post, ~ failure_at s pre col mid idx tbl c post) ->
  extract_error_info s = (None, None, None).
Proof.
  intros H. destruct (extract_error_info_cases s) as [E|(col & idx & tbl & E)]; [done|].
  apply extract_error_info_sound in E as (pre & mid & c & post & Hf).
  by destruct (H pre col mid idx tbl c post).
Qed.

(** C7, as amended.  [extract_error_info] returns the triple of the first
    match of the search: the leftmost occurrence of the error phrase that an
    index statement follows, with the statement nearest to it.  Where the
    output holds no occurrence of the failure pattern at all, it returns
    three [None]. *)
Theorem extract_error_info_leftmost s :
  (forall pre col mid idx tbl c post,
     failure_at s pre col mid idx tbl c post ->
     (forall pre' col' mid' idx' tbl' c' post',
        failure_at s pre' col' mid' idx' tbl' c' post' ->
        length pre < length pre'
        \/ (length pre = length pre' /\ length mid <= length mid')) ->
     extract_error_info s = (Some col, Some idx, Some tbl))
  /\ ((forall pre col mid idx tbl c post,
         ~ failure_at s pre col mid idx tbl c post) ->
      extract_error_info s = (None, None, None)).
Proof.
  split.
  - intros pre col mid idx tbl c post. apply extract_error_info_first.
  - apply extract_error_info_none.
Qed.

Lemma extract_error_info_leftmost_witness :
  extract_error_info
    (error_phrase (lit "foo")
       ++ index_statement (lit "idx_foo") (lit "bar") (quoted (lit "foo")))
  = (Some (lit "foo"), Some (lit "idx_foo"), Some (lit "bar")).
Proof.
  apply (proj1 (extract_error_info_leftmost _)
           [] (lit "foo") [] (lit "idx_foo") (lit "bar") (lit "foo") []).
  - split; [by rewrite !app_nil_r|]. repeat split; first [discriminate|free_of].
  - intros pre' col' mid' idx' tbl' c' post' _. simpl. lia.
Defined.

(** The example of the specification. *)
Lemma extract_error_info_example :
  extract_error_info sample_output
  = (Some (lit "foo"), Some (lit "idx_foo"), Some (lit "bar")).
Proof. vm_compute. reflexivity. Qed.

(** C7 as stated fails where the text between the phrase and its statement
    holds another index statement: the output contains the failure pattern
    for [foo], [idx_foo] and [bar], and the nearer statement is extracted. *)
Lemma extract_error_info_nearest_statement :
  failure_at two_statement_output [] (lit "foo")
    (lit " in "
       ++ index_statement (lit "idx_other") (lit "baz") (quoted (lit "qux"))
       ++ lit "; ")
    (lit "idx_foo") (lit "bar") (lit "foo") []
  /\ extract_error_info two_statement_output
     = (Some (lit "foo"), Some (lit "idx_other"), Some (lit "baz"))
  /\ extract_error_info two_statement_output
     <> (Some (lit "foo"), Some (lit "idx_foo"), Some (lit "bar")).
Proof.
  split; [|split].
  - split; [reflexivity|]. repeat split; first [discriminate|free_of].
  - vm_compute. reflexivity.
  - vm_compute. discriminate.
Qed.


Lemma existsb_free x (s : str) : x ∉ s -> existsb (Ascii.eqb x) s = false.
Proof.
  induction s as [|c s IH]; [done|]. intros [Hc Hs]%not_elem_of_cons. simpl.
  rewrite IH by done. destruct (Ascii.eqb_spec x c); [congruence|done].
Qed.

Lemma replacement_plain idx tbl col :
  backslash ∉ idx -> backslash ∉ tbl -> backslash ∉ col ->
  existsb (Ascii.eqb backslash) (replacement idx tbl col) = false.
Proof.
  intros Hi Ht Hc. apply existsb_free. unfold replacement.
  apply free_join; [free_of|]. unfold replacement_lines, quoted.
  repeat (apply Forall_cons; split;
          [rewrite ?not_elem_of_app; repeat split; first [assumption|free_of]|]).
  constructor.
Qed.


End Extraction.

(** * The repair loop *)

Section Loop.
Import FixAllMigrationIndexes.
Variable parse_template : regex -> str -> option template.
Variable run_migration : nat -> option str.

Lemma fix_index_in_migration_plain tbl col idx w content :
  files w !! migration_file = Some content ->
  backslash ∉ tbl -> backslash ∉ col -> backslash ∉ idx ->
  fix_index_in_migration parse_template tbl col idx w
  = Some {| files :=
              <[migration_file :=
                  re_sub_with (target idx tbl col)
                    (fun _ _ => replacement idx tbl col) content]> (files w);
            printed := printed w ++ [FixedIndex idx tbl col] |}.
Proof.
  intros Hf Ht Hc Hi. unfold fix_index_in_migration, re_sub. rewrite Hf.
  by rewrite replacement_plain.
Qed.

Lemma while_loop_success remaining attempt w output :
  run_migration (attempt + 1) = Some output ->
  contains success_1 output || contains success_2 output = true ->
  while_loop parse_template run_migration (S remaining) attempt w
  = {| ended := Returned;
       final := print MigrationCompleted (print (Attempt (attempt + 1)) w);
       attempts := attempt + 1 |}.
Proof. intros Hrun Hs. cbn [while_loop]. by rewrite Hrun, Hs. Qed.



Lemma known_failure_names output col idx tbl :
  known_failure output col idx tbl -> name col /\ name idx /\ name tbl.
Proof.
  intros (_ & _ & _ & E).
  apply extract_error_info_sound in E as (pre & mid & c & post & _ & ? & ? & ? & _).
  done.
Qed.

Lemma truthy_name n : name n -> truthy (Some n) = true.
Proof. intros [Hn _]. by destruct n. Qed.

Lemma while_loop_repair remaining attempt w output col idx tbl content :
  run_migration (attempt + 1) = Some output ->
  known_failure output col idx tbl ->
  files w !! migration_file = Some content ->
  backslash ∉ col -> backslash ∉ idx -> backslash ∉ tbl ->
  while_loop parse_template run_migration (S remaining) attempt w
  = while_loop parse_template run_migration remaining (attempt + 1)
      {| files :=
           <[migration_file :=
               re_sub_with (target idx tbl col)
                 (fun _ _ => replacement idx tbl col) content]> (files w);
         printed :=
           printed w ++ [Attempt (attempt + 1); FoundError col tbl;
                         FixingIndex idx; FixedIndex idx tbl col] |}.
Proof.
  intros Hrun Hk Hf Hc Hi Ht.
  destruct (known_failure_names _ _ _ _ Hk) as (Hnc & Hni & Hnt).
  destruct Hk as (Hs1 & Hs2 & He & Hx).
  cbn [while_loop]. rewrite Hrun, Hs1, Hs2, He, Hx. cbn [orb].
  rewrite !truthy_name by done. cbn [andb text default].
  rewrite (fix_index_in_migration_plain tbl col idx _ content); try done.
  cbn [print files printed]. do 2 f_equal.
  by rewrite <- !app_assoc.
Qed.

Lemma while_loop_bound remaining attempt w :
  attempts (while_loop parse_template run_migration remaining attempt w)
  <= attempt + remaining.
Proof.
  revert attempt w; induction remaining as [|remaining IH]; intros attempt w.
  - simpl. lia.
  - cbn [while_loop]. repeat case_match; cbn [attempts]; try lia.
    etransitivity; [apply IH|lia].
Qed.

Lemma while_loop_exhausts remaining attempt w content :
  files w !! migration_file = Some content ->
  (forall k, attempt < k <= attempt + remaining -> repairable run_migration k) ->
  let r := while_loop parse_template run_migration remaining attempt w in
  attempts r = attempt + remaining /\ ended r = SysExit 1
  /\ last (printed (final r)) = Some (ReachedMaximum max_attempts).
Proof.
  revert attempt w content; induction remaining as [|remaining IH];
    intros attempt w content Hf Hrun.
  - simpl. split; [lia|]. split; [done|]. apply last_snoc.
  - destruct (Hrun (attempt + 1)) as (output & col & idx & tbl & Ho & Hk & Hc & Hi & Ht);
      [lia|].
    cbv zeta. rewrite (while_loop_repair _ _ _ _ _ _ _ content Ho Hk Hf Hc Hi Ht).
    edestruct IH as (Ha & He & Hl); [..|split; [|split; [exact He|exact Hl]]].
    + cbn [files]. apply lookup_insert_eq.
    + intros k Hk'. apply Hrun. lia.
    + rewrite Ha. lia.
Qed.

(** C4, as amended.  No run makes more than 50 attempts.  A run that starts
    with the migration file in place, and in which each of the 50 attempts
    fails with the known signature for names that hold no backslash, so that
    each repair goes through, makes exactly 50 attempts, prints the
    manual-intervention message last and exits with status 1. *)
Theorem loop_stops_after_fifty_attempts :
  (forall w, attempts (main parse_template run_migration w) <= 50)
  /\ (forall w content,
        files w !! migration_file = Some content ->
        (forall k, 1 <= k <= 50 -> repairable run_migration k) ->
        let r := main parse_template run_migration w in
        attempts r = 50 /\ ended r = SysExit 1 /\ exit_status (ended r) = 1
        /\ last (printed (final r)) = Some (ReachedMaximum 50)).
Proof.
  split.
  - intros w. apply (while_loop_bound 50 0 w).
  - intros w content Hf Hrun r.
    destruct (while_loop_exhausts 50 0 w content Hf)
      as (Ha & He & Hl).
    + intros k Hk. apply Hrun. lia.
    + unfold r, main, max_attempts. rewrite He. done.
Qed.


(** C6. An attempt whose output holds one of the two success substrings ends
    the loop on that attempt: [main] returns (exit status 0) and the files
    are untouched; with such an output at the first attempt the run makes
    one attempt. *)
Theorem success_output_ends_loop :
  (forall remaining attempt w output,
     run_migration (attempt + 1) = Some output ->
     contains success_1 output = true \/ contains success_2 output = true ->
     let r := while_loop parse_template run_migration (S remaining) attempt w in
     ended r = Returned /\ exit_status (ended r) = 0
     /\ attempts r = attempt + 1
     /\ files (final r) = files w
     /\ printed (final r) = printed w ++ [Attempt (attempt + 1); MigrationCompleted])
  /\ (forall w output,
        run_migration 1 = Some output ->
        contains success_1 output = true \/ contains success_2 output = true ->
        let r := main parse_template run_migration w in
        ended r = Returned /\ exit_status (ended r) = 0 /\ attempts r = 1
        /\ files (final r) = files w).
Proof.
  assert (forall output,
            contains success_1 output = true \/ contains success_2 output = true ->
            contains success_1 output || contains success_2 output = true) as Hor.
  { intros output [->| ->]; [done|apply orb_true_r]. }
  split.
  - intros remaining attempt w output Hrun Hs r. unfold r.
    rewrite (while_loop_success _ _ _ output Hrun (Hor _ Hs)).
    cbn. repeat split. by rewrite <- !app_assoc.
  - intros w output Hrun Hs r. unfold r, main, max_attempts.
    rewrite (while_loop_success 49 0 w output Hrun (Hor _ Hs)).
    cbn. done.
Qed.

(** C10. With the migration file present and names without backslash,
    [fix_index_in_migration] always writes the file and prints the
    [FixedIndex] message.  The text written has the leftmost occurrence of
    the statement replaced and the substitution carried on behind it, so
    every occurrence is replaced.  Where the statement does not occur, the
    text and the file store are as before, and the loop goes on to the next
    attempt over the same files. *)
Theorem fix_index_in_migration_rewrites_always tbl col idx w content :
  files w !! migration_file = Some content ->
  backslash ∉ tbl -> backslash ∉ col -> backslash ∉ idx ->
  let st := statement idx tbl col in
  let repl := replacement idx tbl col in
  let substituted := re_sub_with (target idx tbl col) (fun _ _ => repl) in
  fix_index_in_migration parse_template tbl col idx w
  = Some {| files := <[migration_file := substituted content]> (files w);
            printed := printed w ++ [FixedIndex idx tbl col] |}
  /\ (forall a b,
        (forall a' b', a ++ st ++ b = a' ++ st ++ b' -> length a <= length a') ->
        substituted (a ++ st ++ b) = a ++ repl ++ substituted b)
  /\ (contains st content = false ->
      substituted content = content
      /\ <[migration_file := substituted content]> (files w) = files w
      /\ forall remaining attempt output,
           run_migration (attempt + 1) = Some output ->
           known_failure output col idx tbl ->
           exists w',
             while_loop parse_template run_migration (S remaining) attempt w
             = while_loop parse_template run_migration remaining (attempt + 1) w'
             /\ files w' = files w).
Proof.
  intros Hf Ht Hc Hi st repl substituted.
  split; [by apply fix_index_in_migration_plain|].
  split.
  - intros a b Hfirst. unfold substituted, target. fold st.
    by rewrite re_sub_with_first.
  - intros Habs.
    assert (substituted content = content) as E
      by (by apply re_sub_with_absent).
    split; [done|]. rewrite E. split; [by apply insert_id|].
    intros remaining attempt output Hrun Hk. eexists. split.
    + by apply (while_loop_repair _ _ _ output col idx tbl content).
    + cbn [files]. fold repl. fold substituted. rewrite E. by apply insert_id.
Qed.

End Loop.

(** * The loop on sample runners *)

Section SampleRuns.
Import FixAllMigrationIndexes.

Lemma sample_output_known :
  known_failure sample_output (lit "foo") (lit "idx_foo") (lit "bar").
Proof. repeat split; vm_compute; reflexivity. Qed.

Lemma loop_stops_after_fifty_attempts_witness :
  attempts (main no_template always_failing sample_world) = 50
  /\ ended (main no_template always_failing sample_world) = SysExit 1.
Proof.
  destruct (proj2 (loop_stops_after_fifty_attempts no_template always_failing)
              sample_world (lit "SELECT 1;")) as (Ha & He & _).
  - apply lookup_singleton_eq.
  - intros k _. exists sample_output, (lit "foo"), (lit "idx_foo"), (lit "bar").
    split; [reflexivity|]. split; [apply sample_output_known|].
    repeat split; free_of.
  - split; [exact Ha|exact He].
Defined.

(** C4 as stated fails where the migration file is missing: every attempt
    of the runner fails with the known signature and its output holds no
    success substring, yet the first repair raises at [open]; the run ends
    on attempt 1 with an uncaught exception, and the manual-intervention
    message is never printed. *)
Lemma loop_ends_on_first_attempt_without_file :
  (forall k, exists output,
       always_failing k = Some output
       /\ known_failure output (lit "foo") (lit "idx_foo") (lit "bar"))
  /\ attempts (main no_template always_failing empty_world) = 1
  /\ ended (main no_template always_failing empty_world) = Uncaught
  /\ printed (final (main no_template always_failing empty_world))
     = [Attempt 1; FoundError (lit "foo") (lit "bar"); FixingIndex (lit "idx_foo")]
  /\ attempts (main no_template always_failing empty_world) <> 50
  /\ ended (main no_template always_failing empty_world) <> SysExit 1.
Proof.
  split.
  { intros k. exists sample_output. split; [done|apply sample_output_known]. }
  assert (main no_template always_failing empty_world
          = {| ended := Uncaught;
               final := {| files := ∅;
                           printed := [Attempt 1;
                                       FoundError (lit "foo") (lit "bar");
                                       FixingIndex (lit "idx_foo")] |};
               attempts := 1 |}) as E by (vm_compute; reflexivity).
  rewrite E. cbn [attempts ended final printed]. repeat split; discriminate.
Qed.


Lemma success_output_ends_loop_witness :
  ended (main no_template nothing_to_apply sample_world) = Returned
  /\ attempts (main no_template nothing_to_apply sample_world) = 1.
Proof.
  destruct (proj2 (success_output_ends_loop no_template nothing_to_apply)
              sample_world (lit "No migrations to apply")) as (He & _ & Ha & _).
  - reflexivity.
  - right. vm_compute. reflexivity.
  - split; [exact He|exact Ha].
Defined.

Lemma fix_index_in_migration_rewrites_always_witness :
  fix_index_in_migration no_template (lit "bar") (lit "foo") (lit "idx_foo")
    sample_world
  = Some {| files := files sample_world;
            printed := [FixedIndex (lit "idx_foo") (lit "bar") (lit "foo")] |}.
Proof.
  destruct (fix_index_in_migration_rewrites_always no_template always_failing
              (lit "bar") (lit "foo") (lit "idx_foo") sample_world (lit "SELECT 1;"))
    as (Hfix & _ & Habs).
  - apply lookup_singleton_eq.
  - free_of.
  - free_of.
  - free_of.
  - destruct Habs as (_ & Hsame & _); [vm_compute; reflexivity|].
    rewrite Hfix, Hsame. reflexivity.
Defined.

End SampleRuns.

(** * More on the one-shot patcher *)

Section OneShotMore.
Import FixMigrationIndexes.

Lemma conditional_block_head idx tbl cols w :
  exists t, conditional_block idx tbl cols w = "D"%char :: t.
Proof. eexists. unfold conditional_block, block_lines. reflexivity. Qed.

Lemma index_statement_head idx tbl cols x :
  exists t, index_statement idx tbl cols ++ x = "C"%char :: t.
Proof. eexists. unfold index_statement. reflexivity. Qed.

Lemma index_line_candidate line :
  index_line line -> contains create_index_kw line = true.
Proof.
  intros (idx & tbl & cols & rest & -> & _). apply contains_true.
  exists [], (lit " " ++ [dq] ++ idx ++ [dq] ++ lit " ON " ++ [dq] ++ tbl
    ++ [dq] ++ lit " USING btree (" ++ cols ++ lit ")" ++ breakpoint ++ rest).
  unfold index_statement. by rewrite <- !app_assoc.
Qed.

Lemma index_line_rewritten line :
  index_line line -> fix_index_creation line <> line.
Proof.
  intros (idx & tbl & cols & rest & -> & Hi & Ht & Hc & Hp).
  rewrite fix_index_creation_index_line by done.
  destruct (conditional_block_head idx tbl cols (where_clause cols)) as [t ->].
  destruct (index_statement_head idx tbl cols (breakpoint ++ rest)) as [t' ->].
  discriminate.
Qed.

(** X1. The statement rewriter is idempotent: what it returns, it returns
    unchanged. *)
Theorem fix_index_creation_idempotent line :
  fix_index_creation (fix_index_creation line) = fix_index_creation line.
Proof.
  destruct (fix_index_creation_cases line)
    as [(idx & tbl & cols & rest & _ & _ & _ & _ & _ & ->)|[_ E]];
    [|by rewrite !E].
  destruct (conditional_block_head idx tbl cols (where_clause cols)) as [t ->].
  by apply inert_first.
Qed.

(** X2. Which lines the loop of [main] rewrites: exactly the lines that open
    with a well-formed index statement and its delimiter, hold no [DO $$]
    marker and are not followed by a line that holds one. *)
Theorem main_rewrites_exactly lines i line :
  lines !! i = Some line ->
  process lines !! i <> Some line
  <-> index_line line /\ contains do_marker line = false
      /\ marked (lines !! (i + 1)) = false.
Proof.
  intros Hl. rewrite process_spec, (rewrite_lines_lookup _ _ _ Hl).
  unfold keep_or_fix. split.
  - intros Hne.
    destruct (contains create_index_kw line); [|done].
    destruct (contains do_marker line); [done|]. simpl in Hne.
    destruct (marked (lines !! (i + 1))); [done|].
    split; [|done].
    destruct (fix_index_creation_cases line)
      as [(idx & tbl & cols & rest & ? & ? & ? & ? & ? & _)|[_ E]].
    + exists idx, tbl, cols, rest. tauto.
    + by rewrite E in Hne.
  - intros (Hi & -> & ->). rewrite (index_line_candidate _ Hi). simpl.
    intros [= E]. by apply (index_line_rewritten line).
Qed.

Lemma main_rewrites_exactly_witness :
  process [index_statement (lit "idx_a") (lit "users") (quoted (lit "email"))
             ++ breakpoint ++ [nl]] !! 0
  <> Some (index_statement (lit "idx_a") (lit "users") (quoted (lit "email"))
             ++ breakpoint ++ [nl]).
Proof.
  apply (main_rewrites_exactly
           [index_statement (lit "idx_a") (lit "users") (quoted (lit "email"))
              ++ breakpoint ++ [nl]] 0); [reflexivity|].
  split; [|split; reflexivity].
  exists (lit "idx_a"), (lit "users"), (quoted (lit "email")), [nl].
  repeat split; try done; free_of.
Defined.

Lemma readlines_member l s : l ∈ readlines s -> exists a b, s = a ++ l ++ b.
Proof.
  intros (l1 & l2 & E)%list_elem_of_split.
  exists (concat l1), (concat l2).
  rewrite <- (readlines_concat s) at 1. rewrite E.
  by rewrite concat_app.
Qed.

Lemma contains_inside sub l a b :
  contains sub l = true -> contains sub (a ++ l ++ b) = true.
Proof.
  intros (x & y & ->)%contains_true. apply contains_true.
  exists (a ++ x), (y ++ b). by rewrite <- !app_assoc.
Qed.

Lemma rewrite_lines_no_candidate ls :
  Forall (fun l => contains create_index_kw l = false) ls ->
  rewrite_lines ls = ls.
Proof.
  induction 1 as [|l ls Hl _ IH]; [done|]. simpl. rewrite IH.
  unfold keep_or_fix. by rewrite Hl.
Qed.

Lemma patch_no_candidate content :
  contains create_index_kw content = false -> patch content = content.
Proof.
  intros H. unfold patch, writelines. rewrite process_spec.
  rewrite rewrite_lines_no_candidate; [apply readlines_concat|].
  apply Forall_forall. intros l (a & b & E)%readlines_member.
  destruct (contains create_index_kw l) eqn:El; [|done].
  by rewrite E, (contains_inside _ _ a b El) in H.
Qed.

(** X3. A migration file without any [CREATE INDEX IF NOT EXISTS] is written
    back as it was read: the run leaves the file store unchanged. *)
Theorem main_without_index_statement (fs : gmap string str) content :
  fs !! input_file = Some content ->
  contains create_index_kw content = false ->
  files (main fs) = fs /\ ended (main fs) = Returned.
Proof.
  intros H Hc. unfold main. rewrite H. simpl. split; [|done].
  fold (patch content). rewrite patch_no_candidate by done.
  by apply insert_id.
Qed.

Lemma main_without_index_statement_witness :
  files (main {[ input_file := lit "CREATE TABLE t (id int);" ++ [nl] ]})
  = {[ input_file := lit "CREATE TABLE t (id int);" ++ [nl] ]}.
Proof.
  apply (main_without_index_statement _ (lit "CREATE TABLE t (id int);" ++ [nl])).
  - apply lookup_singleton_eq.
  - reflexivity.
Defined.

Lemma contains_snoc_free sub s c :
  sub <> [] -> c ∉ sub -> contains sub (s ++ [c]) = contains sub s.
Proof.
  intros Hne Hc. destruct (contains sub s) eqn:E.
  - apply contains_true in E as (a & b & ->). apply contains_true.
    exists a, (b ++ [c]). by rewrite <- !app_assoc.
  - destruct (contains sub (s ++ [c])) eqn:E'; [|done].
    apply contains_true in E' as (a & b & E').
    destruct b as [|x b _] using rev_ind.
    + rewrite app_nil_r in E'.
      destruct sub as [|y sub _] using rev_ind; [done|].
      rewrite app_assoc in E'. apply app_inj_tail in E' as [_ ->].
      exfalso. apply Hc. apply elem_of_app. right. by left.
    + rewrite !app_assoc in E'. apply app_inj_tail in E' as [-> _].
      rewrite <- app_assoc in E.
      apply (proj1 (contains_false _ _)) with (a := a) (b := b) in E. done.
Qed.

Lemma patch_line b tail :
  nl ∉ b ->
  patch (b ++ nl :: tail)
  = keep_or_fix (b ++ [nl]) (head (readlines tail)) ++ patch tail.
Proof.
  intros Hb. unfold patch, writelines. rewrite !process_spec.
  by rewrite readlines_line.
Qed.

(** X4. A rewritten line loses everything behind its delimiter, the newline
    included: the block is written without a line end, directly followed by
    the patched rest of the file. *)
Theorem main_drops_rest_of_line idx tbl cols rest tail :
  name idx -> name tbl -> cols <> [] -> rparen ∉ cols ->
  let line := index_statement idx tbl cols ++ breakpoint ++ rest in
  nl ∉ line -> contains do_marker line = false ->
  marked (head (readlines tail)) = false ->
  patch (line ++ nl :: tail)
  = conditional_block idx tbl cols (where_clause cols) ++ patch tail.
Proof.
  intros Hi Ht Hc Hp line Hnl Hm Hnext. rewrite patch_line by done.
  f_equal. unfold keep_or_fix. rewrite Hnext.
  rewrite (contains_snoc_free do_marker), Hm by (done || free_of).
  assert (index_line (line ++ [nl])) as Hl.
  { exists idx, tbl, cols, (rest ++ [nl]). unfold line.
    by rewrite <- !app_assoc. }
  rewrite (index_line_candidate _ Hl). cbn [andb negb]. unfold line.
  rewrite <- !app_assoc. by apply fix_index_creation_index_line.
Qed.

Lemma main_drops_rest_of_line_witness :
  patch (index_statement (lit "idx_a") (lit "users") (quoted (lit "email"))
           ++ breakpoint ++ lit " -- by email" ++ nl :: lit "SELECT 1;")
  = conditional_block (lit "idx_a") (lit "users") (quoted (lit "email"))
      (where_clause (quoted (lit "email"))) ++ lit "SELECT 1;".
Proof.
  pose proof (main_drops_rest_of_line (lit "idx_a") (lit "users")
                (quoted (lit "email")) (lit " -- by email") (lit "SELECT 1;"))
    as H.
  cbv zeta in H. rewrite <- !app_assoc in H.
  rewrite H; [reflexivity|split; [done|free_of]|split; [done|free_of]|done
             |free_of|free_of|reflexivity|reflexivity].
Defined.

Lemma free_replacement_lines idx tbl col :
  nl ∉ idx -> nl ∉ tbl -> nl ∉ col ->
  Forall (fun l => nl ∉ l) (FixAllMigrationIndexes.replacement_lines idx tbl col).
Proof.
  intros Hi Ht Hc. unfold FixAllMigrationIndexes.replacement_lines, quoted.
  repeat (apply Forall_cons; split;
          [rewrite ?not_elem_of_app; repeat split; first [assumption|free_of]|]).
  constructor.
Qed.

Lemma inert_replacement_lines idx tbl col :
  Forall (fun l => forall x, inert (l ++ x))
    (FixAllMigrationIndexes.replacement_lines idx tbl col).
Proof.
  unfold FixAllMigrationIndexes.replacement_lines.
  repeat (apply Forall_cons; split; [intros x; by apply inert_first|]).
  constructor.
Qed.

Lemma patch_inert_lines ls tail :
  ls <> [] -> Forall (fun l => nl ∉ l) ls ->
  Forall (fun l => forall x, inert (l ++ x)) ls ->
  patch (join [nl] ls ++ nl :: tail) = join [nl] ls ++ nl :: patch tail.
Proof.
  intros Hne Hfree Hinert. induction ls as [|l ls IH]; [done|]. clear Hne.
  apply Forall_cons in Hfree as [Hl Hfree].
  apply Forall_cons in Hinert as [Il Hinert].
  destruct ls as [|l' ls].
  - cbn [join]. rewrite patch_line, keep_or_fix_inert by done.
    by rewrite <- app_assoc.
  - change (join [nl] (l :: l' :: ls)) with (l ++ [nl] ++ join [nl] (l' :: ls)).
    rewrite <- !app_assoc. cbn [app].
    rewrite patch_line, keep_or_fix_inert, IH by done.
    rewrite <- !app_assoc. done.
Qed.

(** X5. The one-shot patcher leaves a block the error-driven fixer wrote as
    it is, line by line, and goes on behind it. *)
Theorem main_keeps_repair_block idx tbl col tail :
  nl ∉ idx -> nl ∉ tbl -> nl ∉ col ->
  patch (FixAllMigrationIndexes.replacement idx tbl col ++ nl :: tail)
  = FixAllMigrationIndexes.replacement idx tbl col ++ nl :: patch tail.
Proof.
  intros Hi Ht Hc. apply patch_inert_lines.
  - done.
  - by apply free_replacement_lines.
  - apply inert_replacement_lines.
Qed.

Lemma main_keeps_repair_block_witness :
  patch (FixAllMigrationIndexes.replacement (lit "idx_foo") (lit "bar")
           (lit "foo") ++ nl :: lit "SELECT 1;")
  = FixAllMigrationIndexes.replacement (lit "idx_foo") (lit "bar") (lit "foo")
      ++ nl :: lit "SELECT 1;".
Proof.
  rewrite main_keeps_repair_block; [reflexivity|free_of|free_of|free_of].
Defined.
End OneShotMore.

(** * Column lists *)

Section ColumnLists.
Import FixMigrationIndexes.










(** X7. Whatever follows the closing quote of a column, an ordering keyword
    for instance, stays in the name the guard compares, together with that
    quote: only quotes at the two ends of a piece are removed. *)
Theorem column_list_keeps_trailing_text c body x :
  c <> [] -> dq ∉ c -> comma ∉ c -> comma ∉ body -> x <> comma ->
  is_space x = false -> x <> dq ->
  column_list (quoted c ++ body ++ [x]) = [c ++ [dq] ++ body ++ [x]]
  /\ where_clause (quoted c ++ body ++ [x])
     = lit "column_name = '" ++ c ++ [dq] ++ body ++ [x] ++ lit "'".
Proof.
  intros Hne Hq Hc Hb Hx Hs Hxq.
  assert (column_list (quoted c ++ body ++ [x]) = [c ++ [dq] ++ body ++ [x]])
    as E.
  { unfold column_list. rewrite split_no_sep.
    - cbn [map]. f_equal. unfold quoted, strip.
      replace (([dq] ++ c ++ [dq]) ++ body ++ [x])
        with (dq :: (c ++ [dq] ++ body) ++ [x])
        by (cbn; by rewrite <- !app_assoc).
      rewrite strip_with_keeps by done.
      unfold strip_chars, strip_with, rstrip. cbn [lstrip existsb].
      rewrite Ascii.eqb_refl. cbn [orb].
      destruct c as [|a c]; [done|].
      apply not_elem_of_cons in Hq as [Ha Hq].
      cbn [app lstrip existsb].
      destruct (Ascii.eqb_spec a dq) as [->|_]; [done|]. cbn [orb].
      replace (a :: (c ++ dq :: body) ++ [x])
        with ((a :: c ++ dq :: body) ++ [x]) by done.
      rewrite rev_app_distr. cbn [rev app lstrip existsb].
      destruct (Ascii.eqb_spec x dq) as [->|_]; [done|]. cbn [orb].
      change (rev (c ++ dq :: body) ++ [a]) with (rev (a :: c ++ dq :: body)).
      change (x :: rev (a :: c ++ dq :: body))
        with (rev [x] ++ rev (a :: c ++ dq :: body)).
      rewrite <- rev_app_distr, rev_involutive.
      cbn. by rewrite <- !app_assoc.
    - rewrite !not_elem_of_app, not_elem_of_cons. repeat split; try done.
      + by apply quoted_free.
      + apply not_elem_of_nil. }
  split; [done|]. unfold where_clause. rewrite E. cbn [map join].
  unfold condition. by rewrite <- !app_assoc.
Qed.

Lemma column_list_keeps_trailing_text_witness :
  column_list (quoted (lit "created_at") ++ lit " DES" ++ lit "C")
  = [lit "created_at" ++ [dq] ++ lit " DES" ++ lit "C"].
Proof.
  apply (column_list_keeps_trailing_text (lit "created_at") (lit " DES")
           "C"%char); try done; free_of.
Defined.
End ColumnLists.

(** * The loop state of the one-shot patcher *)

Section SkipFlag.
Import FixMigrationIndexes.

(** X8. The skip flag of the loop is never raised: from any position with the
    flag down, the loop ends with the flag down and has appended exactly one
    entry for every line it went through. *)
Theorem skip_flag_stays_down lines i todo st :
  skip_next st = false ->
  skip_next (for_enumerate lines i todo st) = false
  /\ length (fixed_lines (for_enumerate lines i todo st))
     = length (fixed_lines st) + length todo.
Proof.
  revert i st. induction todo as [|line todo IH]; intros i st Hs.
  - simpl. split; [done|lia].
  - cbn [for_enumerate]. rewrite body_keep_or_fix by done.
    destruct (IH (S i) (append st (keep_or_fix line (lines !! (i + 1)))))
      as [IH1 IH2]; [done|].
    split; [done|]. rewrite IH2. unfold append. cbn [fixed_lines].
    rewrite length_app. simpl. lia.
Qed.

Lemma skip_flag_stays_down_witness :
  length (process (readlines sample_file)) = 3.
Proof.
  destruct (skip_flag_stays_down (readlines sample_file) 0
              (readlines sample_file)
              {| skip_next := false; fixed_lines := [] |}) as [_ H].
  - reflexivity.
  - exact H.
Defined.
End SkipFlag.

(** * More on the repair loop *)

Section ExtractionMore.
Import FixAllMigrationIndexes.

(** X9. The extraction gives three names or none, and a name it gives is
    never empty: the truth test of [main] on the triple fails exactly when
    the search found no match. *)
Theorem extract_error_info_all_or_nothing output c i t :
  extract_error_info output = (c, i, t) ->
  if truthy c && truthy i && truthy t
  then exists col idx tbl,
         c = Some col /\ i = Some idx /\ t = Some tbl
         /\ name col /\ name idx /\ name tbl
  else c = None /\ i = None /\ t = None /\ re_search pattern output = None.
Proof.
  intros E.
  destruct (re_search pattern output) as [[gs r]|] eqn:Es.
  - apply extract_error_info_found in Es as (col & idx & tbl & c0 & _ & E').
    rewrite E' in E. injection E as <- <- <-.
    apply extract_error_info_sound in E'
      as (pre & mid & c1 & post & _ & Hc & Hi & Ht & _).
    rewrite !truthy_name by done. cbn [andb].
    exists col, idx, tbl. done.
  - unfold extract_error_info in E. rewrite Es in E.
    injection E as <- <- <-. done.
Qed.

Lemma extract_error_info_all_or_nothing_witness :
  exists col idx tbl,
    Some (lit "foo") = Some col /\ Some (lit "idx_foo") = Some idx
    /\ Some (lit "bar") = Some tbl /\ name col /\ name idx /\ name tbl.
Proof.
  apply (extract_error_info_all_or_nothing sample_output
           (Some (lit "foo")) (Some (lit "idx_foo")) (Some (lit "bar"))).
  reflexivity.
Defined.
End ExtractionMore.

Section LoopMore.
Import FixAllMigrationIndexes.
Variable parse_template : regex -> str -> option template.
Variable run_migration : nat -> option str.

(** One turn of the loop: either the run ends on this attempt with the files
    as they were, or the migration file is rewritten and the loop goes on. *)
Lemma while_loop_step remaining attempt w :
  let r := while_loop parse_template run_migration (S remaining) attempt w in
  (attempts r = attempt + 1 /\ files (final r) = files w
   /\ (exists log, printed (final r) = printed w ++ Attempt (attempt + 1) :: log
                   /\ omap attempt_number log = [])
   /\ (ended r = Returned ->
       exists output,
         run_migration (attempt + 1) = Some output
         /\ contains success_1 output || contains success_2 output = true
         /\ last (printed (final r)) = Some MigrationCompleted))
  \/ exists col idx tbl content new_content,
       files w !! migration_file = Some content
       /\ r = while_loop parse_template run_migration remaining (attempt + 1)
                {| files := <[migration_file := new_content]> (files w);
                   printed := printed w ++ [Attempt (attempt + 1);
                                            FoundError col tbl;
                                            FixingIndex idx;
                                            FixedIndex idx tbl col] |}.
Proof.
  cbn [while_loop].
  assert (forall (l : list message) a b, (l ++ [a]) ++ b = l ++ a :: b) as Hsnoc.
  { intros. by rewrite <- app_assoc. }
  destruct (run_migration (attempt + 1)) as [output|] eqn:Hrun.
  2: { left. cbn. repeat split; try done. by exists []. }
  destruct (contains success_1 output || contains success_2 output) eqn:Hs.
  { left. cbn. repeat split; try done.
    - eexists. rewrite Hsnoc. split; [reflexivity|done].
    - intros _. exists output. repeat split; try done. apply last_snoc. }
  destruct (contains error_marker output) eqn:He.
  2: { left. cbn. repeat split; try done.
       eexists. rewrite !Hsnoc. split; [reflexivity|done]. }
  destruct (extract_error_info output) as [[c i] t] eqn:Hx.
  destruct (truthy c && truthy i && truthy t) eqn:Htr.
  2: { left. cbn. repeat split; try done.
       eexists. rewrite !Hsnoc. split; [reflexivity|done]. }
  unfold fix_index_in_migration. cbn [files print].
  destruct (files w !! migration_file) as [content|] eqn:Hf.
  2: { left. cbn. repeat split; try done.
       eexists. rewrite !Hsnoc. split; [reflexivity|done]. }
  destruct (re_sub _ _ _ _) as [new_content|] eqn:Hsub.
  2: { left. cbn. repeat split; try done.
       eexists. rewrite !Hsnoc. split; [reflexivity|done]. }
  right. exists (text c), (text i), (text t), content, new_content.
  split; [done|]. f_equal. unfold print. cbn [printed files]. f_equal.
  by rewrite <- !app_assoc.
Qed.

Lemma while_loop_lower remaining attempt w :
  attempt <= attempts (while_loop parse_template run_migration remaining attempt w).
Proof.
  revert attempt w; induction remaining as [|remaining IH]; intros attempt w.
  - simpl. lia.
  - cbn [while_loop]. repeat case_match; cbn [attempts]; try lia.
    etransitivity; [|apply IH]. lia.
Qed.

(** X10. The loop writes to the migration file and to nothing else: every
    other path holds what it held, and the migration file is neither created
    nor removed. *)
Theorem loop_touches_only_migration_file remaining attempt w :
  let r := while_loop parse_template run_migration remaining attempt w in
  (forall p, p <> migration_file -> files (final r) !! p = files w !! p)
  /\ (is_Some (files (final r) !! migration_file)
      <-> is_Some (files w !! migration_file)).
Proof.
  revert attempt w; induction remaining as [|remaining IH]; intros attempt w.
  - done.
  - destruct (while_loop_step remaining attempt w)
      as [(_ & Hf & _)|(col & idx & tbl & content & new_content & Hc & E)];
      cbv zeta in *.
    + by rewrite Hf.
    + rewrite E. destruct (IH (attempt + 1)
        {| files := <[migration_file := new_content]> (files w);
           printed := printed w ++ [Attempt (attempt + 1); FoundError col tbl;
                                    FixingIndex idx; FixedIndex idx tbl col] |})
        as [IH1 IH2].
      cbn [files] in *. split.
      * intros p Hp. rewrite IH1 by done. by rewrite lookup_insert_ne.
      * rewrite IH2, lookup_insert_eq, Hc. split; eauto.
Qed.

(** X11. With the migration file missing the run ends on the attempt it is
    in, whatever the runner answers, and the files are untouched; a failure
    with the known signature is announced and then ends the run with the
    uncaught exception of [open]. *)
Theorem missing_migration_file remaining attempt w :
  files w !! migration_file = None ->
  let r := while_loop parse_template run_migration (S remaining) attempt w in
  attempts r = attempt + 1 /\ files (final r) = files w
  /\ forall output col idx tbl,
       run_migration (attempt + 1) = Some output ->
       known_failure output col idx tbl ->
       ended r = Uncaught
       /\ printed (final r)
          = printed w ++ [Attempt (attempt + 1); FoundError col tbl;
                          FixingIndex idx].
Proof.
  intros Hf. cbv zeta.
  destruct (while_loop_step remaining attempt w)
    as [(Ha & Hfs & _)|(col & idx & tbl & content & new_content & Hc & _)];
    [|congruence].
  cbv zeta in *. split; [done|]. split; [done|].
  intros output col idx tbl Hrun Hk.
  destruct (known_failure_names _ _ _ _ Hk) as (Hnc & Hni & Hnt).
  destruct Hk as (Hs1 & Hs2 & He & Hx).
  cbn [while_loop]. rewrite Hrun, Hs1, Hs2, He, Hx. cbn [orb].
  rewrite !truthy_name by done. cbn [andb text default].
  unfold fix_index_in_migration. cbn [files print]. rewrite Hf.
  cbn [ended final]. split; [done|]. unfold print. cbn [printed].
  by rewrite <- !app_assoc.
Qed.

(** X12. [main] returns normally only from an attempt whose output holds one
    of the two success substrings; the last thing printed is then the
    completion message. *)
Theorem returns_only_on_success remaining attempt w :
  let r := while_loop parse_template run_migration remaining attempt w in
  ended r = Returned ->
  exists output,
    run_migration (attempts r) = Some output
    /\ contains success_1 output || contains success_2 output = true
    /\ last (printed (final r)) = Some MigrationCompleted.
Proof.
  revert attempt w; induction remaining as [|remaining IH]; intros attempt w.
  - done.
  - destruct (while_loop_step remaining attempt w)
      as [(Ha & _ & _ & Hr)|(col & idx & tbl & content & new_content & _ & E)];
      cbv zeta in *.
    + rewrite Ha. apply Hr.
    + rewrite E. apply IH.
Qed.

(** X13. Every attempt is announced once and in order: the [Attempt] messages
    a run adds to the log are numbered from the first attempt it makes to
    the last, and nothing already printed is lost. *)
Theorem attempts_are_announced remaining attempt w :
  let r := while_loop parse_template run_migration remaining attempt w in
  exists log,
    printed (final r) = printed w ++ log
    /\ omap attempt_number log = seq (attempt + 1) (attempts r - attempt).
Proof.
  revert attempt w; induction remaining as [|remaining IH]; intros attempt w.
  - exists [ReachedMaximum max_attempts]. split; [done|].
    cbn. by rewrite Nat.sub_diag.
  - destruct (while_loop_step remaining attempt w)
      as [(Ha & _ & (log & Hl & Ho) & _)
         |(col & idx & tbl & content & new_content & _ & E)];
      cbv zeta in *.
    + exists (Attempt (attempt + 1) :: log). split; [done|].
      change (omap attempt_number (Attempt (attempt + 1) :: log))
        with ((attempt + 1) :: omap attempt_number log).
      rewrite Ho, Ha. by replace (attempt + 1 - attempt) with 1 by lia.
    + rewrite E. edestruct IH as (log & Hl & Ho).
      eexists. split.
      * rewrite Hl. cbn [printed]. rewrite <- app_assoc. reflexivity.
      * rewrite omap_app. rewrite Ho. cbn.
        pose proof (while_loop_lower remaining (attempt + 1)
          {| files := <[migration_file := new_content]> (files w);
             printed := printed w ++ [Attempt (attempt + 1); FoundError col tbl;
                                      FixingIndex idx; FixedIndex idx tbl col] |})
          as Hlow.
        match goal with
        | |- context [attempts ?r - attempt] =>
            replace (attempts r - attempt)
              with (S (attempts r - (attempt + 1))) by lia
        end.
        cbn [seq]. do 2 f_equal. lia.
Qed.

(** X14. Repairs that find nothing to replace leave the file as it was: when
    every failure names a statement the migration file does not hold, the
    run spends all its attempts, ends with status 1, and the files are those
    it started with. *)
Theorem futile_repairs_change_nothing remaining attempt w content :
  files w !! migration_file = Some content ->
  (forall k, attempt < k <= attempt + remaining ->
             futile run_migration content k) ->
  let r := while_loop parse_template run_migration remaining attempt w in
  files (final r) = files w /\ attempts r = attempt + remaining
  /\ ended r = SysExit 1.
Proof.
  revert attempt w; induction remaining as [|remaining IH];
    intros attempt w Hf Hrun.
  - simpl. split; [done|]. split; [lia|done].
  - destruct (Hrun (attempt + 1))
      as (output & col & idx & tbl & Ho & Hk & Hc & Hi & Ht & Habs); [lia|].
    cbv zeta.
    rewrite (while_loop_repair parse_template run_migration
               _ _ _ _ _ _ _ content Ho Hk Hf Hc Hi Ht).
    unfold target. rewrite re_sub_with_absent; [|done|done].
    rewrite insert_id by done.
    edestruct IH as (Hfs & Ha & He); [..|split; [exact Hfs|split; [|exact He]]].
    + exact Hf.
    + intros k Hk'. apply Hrun. lia.
    + rewrite Ha. lia.
Qed.

(** X15. The loop repairs until the migration succeeds: when the attempts
    before the k-th fail with the known signature and are repaired, and the
    k-th output holds a success substring, the run returns on attempt k with
    exit status 0. *)
Theorem loop_returns_after_repairs remaining attempt w content k output :
  files w !! migration_file = Some content ->
  attempt < k <= attempt + remaining ->
  (forall j, attempt < j < k -> repairable run_migration j) ->
  run_migration k = Some output ->
  contains success_1 output || contains success_2 output = true ->
  let r := while_loop parse_template run_migration remaining attempt w in
  ended r = Returned /\ exit_status (ended r) = 0 /\ attempts r = k
  /\ last (printed (final r)) = Some MigrationCompleted.
Proof.
  revert attempt w content; induction remaining as [|remaining IH];
    intros attempt w content Hf Hk Hrep Hrun Hs; [lia|].
  cbv zeta. destruct (decide (k = attempt + 1)) as [->|Hne].
  - rewrite (while_loop_success parse_template run_migration _ _ _ output)
      by done.
    cbn. repeat split; try done. apply last_snoc.
  - destruct (Hrep (attempt + 1))
      as (out & col & idx & tbl & Ho & Hkf & Hc & Hi & Ht); [lia|].
    rewrite (while_loop_repair parse_template run_migration
               _ _ _ _ _ _ _ content Ho Hkf Hf Hc Hi Ht).
    eapply IH; try done.
    + cbn [files]. apply lookup_insert_eq.
    + lia.
    + intros j Hj. apply Hrep. lia.
Qed.
End LoopMore.

Section SampleRunsMore.
Import FixAllMigrationIndexes.

Lemma loop_touches_only_migration_file_witness :
  files (final (main no_template always_failing sample_world))
    !! "package.json"%string
  = files sample_world !! "package.json"%string.
Proof.
  destruct (loop_touches_only_migration_file no_template always_failing
              50 0 sample_world) as [H _].
  by apply H.
Defined.

Lemma missing_migration_file_witness :
  attempts (main no_template always_failing {| files := ∅; printed := [] |}) = 1
  /\ files (final (main no_template always_failing
                     {| files := ∅; printed := [] |})) = ∅.
Proof.
  destruct (missing_migration_file no_template always_failing 49 0
              {| files := ∅; printed := [] |}) as (H1 & H2 & _).
  - apply lookup_empty.
  - split; [exact H1|exact H2].
Defined.

Lemma returns_only_on_success_witness :
  exists output,
    nothing_to_apply
      (attempts (main no_template nothing_to_apply sample_world)) = Some output
    /\ contains success_1 output || contains success_2 output = true.
Proof.
  destruct (returns_only_on_success no_template nothing_to_apply 50 0
              sample_world) as (output & H1 & H2 & _).
  - reflexivity.
  - exists output. split; [exact H1|exact H2].
Defined.

Lemma sample_futile k : futile always_failing (lit "SELECT 1;") k.
Proof.
  exists sample_output, (lit "foo"), (lit "idx_foo"), (lit "bar").
  split; [done|]. split; [apply sample_output_known|].
  repeat split; free_of.
Qed.

Lemma futile_repairs_change_nothing_witness :
  files (final (main no_template always_failing sample_world))
  = files sample_world.
Proof.
  destruct (futile_repairs_change_nothing no_template always_failing
              50 0 sample_world (lit "SELECT 1;")) as (H & _).
  - apply lookup_singleton_eq.
  - intros k _. apply sample_futile.
  - exact H.
Defined.

Lemma loop_returns_after_repairs_witness :
  ended (main no_template third_time_lucky sample_world) = Returned
  /\ attempts (main no_template third_time_lucky sample_world) = 3.
Proof.
  destruct (loop_returns_after_repairs no_template third_time_lucky
              50 0 sample_world (lit "SELECT 1;") 3
              (lit "Migrations completed successfully"))
    as (H1 & _ & H2 & _).
  - apply lookup_singleton_eq.
  - lia.
  - intros j Hj.
    exists sample_output, (lit "foo"), (lit "idx_foo"), (lit "bar").
    split.
    + unfold third_time_lucky.
      destruct (Nat.ltb_spec j 3) as [_|?]; [done|lia].
    + split; [apply sample_output_known|]. repeat split; free_of.
  - reflexivity.
  - reflexivity.
  - split; [exact H1|exact H2].
Defined.
End SampleRunsMore.

Section Tracebacks.
Import FixAllMigrationIndexes.
Variable parse_template : regex -> str -> option template.
Variable run_migration : nat -> option str.

(** X16. With the migration file in place and names free of backslashes, a
    run ends with an uncaught exception only when the runner itself raised,
    on the last attempt made. *)
Theorem traceback_only_from_runner remaining attempt w content :
  files w !! migration_file = Some content ->
  plain_names run_migration ->
  let r := while_loop parse_template run_migration remaining attempt w in
  ended r = Uncaught -> run_migration (attempts r) = None.
Proof.
  intros Hf Hplain. revert attempt w content Hf.
  induction remaining as [|remaining IH]; intros attempt w content Hf; [done|].
  cbv zeta. cbn [while_loop].
  destruct (run_migration (attempt + 1)) as [output|] eqn:Hrun; [|done].
  destruct (contains success_1 output || contains success_2 output); [done|].
  destruct (contains error_marker output); [|done].
  destruct (extract_error_info_cases output) as [E|(col & idx & tbl & E)];
    rewrite E; [done|].
  destruct (Hplain _ _ _ _ _ Hrun E) as (Hc & Hi & Ht).
  apply extract_error_info_sound in E
    as (pre & mid & c1 & post & _ & Hnc & Hni & Hnt & _).
  rewrite !truthy_name by done. cbn [andb text default].
  rewrite (fix_index_in_migration_plain parse_template tbl col idx _ content)
    by done.
  eapply (IH (attempt + 1)). cbn [files print]. apply lookup_insert_eq.
Qed.
End Tracebacks.

Section TracebackRuns.
Import FixAllMigrationIndexes.

Lemma traceback_only_from_runner_witness :
  no_npm (attempts (main no_template no_npm sample_world)) = None.
Proof.
  apply (traceback_only_from_runner no_template no_npm 50 0 sample_world
           (lit "SELECT 1;")).
  - apply lookup_singleton_eq.
  - intros k output col idx tbl H. discriminate H.
  - reflexivity.
Defined.
End TracebackRuns.

(** * The class list repair *)

Lemma str_replace_unfold old new s :
  old <> [] ->
  str_replace old new s =
  match strip_prefix old s with
  | Some rest => new ++ str_replace old new rest
  | None => match s with
            | [] => []
            | c :: s' => c :: str_replace old new s'
            end
  end.
Proof.
  intros Hold. unfold str_replace. rewrite re_sub_with_unfold at 1.
  cbn [match_here]. destruct (strip_prefix old s) as [rest|] eqn:E; [|done].
  apply strip_prefix_Some in E as ->. cbn zeta.
  assert (length rest < length (old ++ rest)) as Hlt.
  { rewrite length_app. destruct old; [done|]. simpl. lia. }
  apply Nat.ltb_lt in Hlt. by rewrite Hlt.
Qed.

(** A text free of the first character of [old] passes through unchanged,
    and so does what the replacement read to produce it. *)
Lemma str_replace_keeps_prefix h o_tl n_tl t :
  h ∉ t ->
  forall s r,
    str_replace (h :: o_tl) (h :: n_tl) s = t ++ r ->
    exists s', s = t ++ s' /\ str_replace (h :: o_tl) (h :: n_tl) s' = r.
Proof.
  induction t as [|c t IH]; intros Ht s r E.
  - by exists s.
  - apply not_elem_of_cons in Ht as [Hc Ht].
    rewrite str_replace_unfold in E by done.
    destruct (strip_prefix (h :: o_tl) s) as [rest|] eqn:Es.
    + simpl in E. congruence.
    + destruct s as [|c0 s1]; [done|]. simpl in E. injection E as -> E.
      destruct (IH Ht _ _ E) as (s' & -> & E'). by exists s'.
Qed.

Lemma contains_skip h o pre x :
  h ∉ pre -> contains (h :: o) (pre ++ x) = contains (h :: o) x.
Proof.
  induction pre as [|c pre IH]; [done|]. intros [Hc Hp]%not_elem_of_cons.
  simpl app. rewrite contains_unfold. cbn [strip_prefix].
  destruct (Ascii.eqb_spec h c); [congruence|]. by apply IH.
Qed.

(** After the replacement no occurrence of [old] is left, when neither [old]
    nor [new] repeats its first character and [new] does not open with [old]. *)
Lemma str_replace_clears h o_tl n_tl :
  h ∉ o_tl -> h ∉ n_tl ->
  (forall x, strip_prefix (h :: o_tl) ((h :: n_tl) ++ x) = None) ->
  forall s, contains (h :: o_tl) (str_replace (h :: o_tl) (h :: n_tl) s) = false.
Proof.
  intros Ho Hn Hnew s.
  remember (S (length s)) as n eqn:Hlen. assert (length s < n) as Hlt by lia.
  clear Hlen. revert s Hlt. induction n as [|n IH]; intros s Hlt; [lia|].
  rewrite str_replace_unfold by done.
  destruct (strip_prefix (h :: o_tl) s) as [rest|] eqn:Es.
  - apply strip_prefix_Some in Es as ->.
    rewrite contains_unfold, Hnew.
    change ((h :: n_tl) ++ str_replace (h :: o_tl) (h :: n_tl) rest)
      with (h :: (n_tl ++ str_replace (h :: o_tl) (h :: n_tl) rest)).
    cbv iota. rewrite contains_skip by done. apply IH.
    simpl in Hlt. rewrite length_app in Hlt. lia.
  - destruct s as [|c s']; [done|].
    rewrite contains_unfold.
    destruct (strip_prefix (h :: o_tl) (c :: str_replace _ _ s')) as [r|] eqn:E.
    + apply strip_prefix_Some in E. simpl in E. injection E as -> E.
      apply (str_replace_keeps_prefix h o_tl n_tl o_tl Ho) in E as (s'' & -> & _).
      change (h :: o_tl ++ s'') with ((h :: o_tl) ++ s'') in Es.
      by rewrite strip_prefix_app in Es.
    + apply IH. simpl in Hlt. lia.
Qed.

Lemma str_replace_absent old new s :
  old <> [] -> contains old s = false -> str_replace old new s = s.
Proof. intros. by apply re_sub_with_absent. Qed.

Lemma str_replace_filter (keep : ascii -> bool) old new :
  old <> [] -> List.filter keep old = List.filter keep new ->
  forall s, List.filter keep (str_replace old new s) = List.filter keep s.
Proof.
  intros Hold Hk s.
  remember (S (length s)) as n eqn:Hlen. assert (length s < n) as Hlt by lia.
  clear Hlen. revert s Hlt. induction n as [|n IH]; intros s Hlt; [lia|].
  rewrite str_replace_unfold by done.
  destruct (strip_prefix old s) as [rest|] eqn:Es.
  - apply strip_prefix_Some in Es as ->.
    rewrite !List.filter_app, Hk. f_equal. apply IH.
    rewrite length_app in Hlt. destruct old; [done|]. simpl in Hlt. lia.
  - destruct s as [|c s']; [done|]. simpl in Hlt. simpl.
    rewrite IH by lia. done.
Qed.

Lemma str_replace_length old new :
  old <> [] -> length new <= length old ->
  forall s, length (str_replace old new s) <= length s.
Proof.
  intros Hold Hk s.
  remember (S (length s)) as n eqn:Hlen. assert (length s < n) as Hlt by lia.
  clear Hlen. revert s Hlt. induction n as [|n IH]; intros s Hlt; [lia|].
  rewrite str_replace_unfold by done.
  destruct (strip_prefix old s) as [rest|] eqn:Es.
  - apply strip_prefix_Some in Es as ->.
    rewrite !length_app in *. specialize (IH rest).
    destruct old; [done|]. simpl in *. lia.
  - destruct s as [|c s']; [done|]. simpl in *. specialize (IH s'). lia.
Qed.

Section FixScriptFacts.
Import FixScript.

Lemma fix_script_clears s : contains old (str_replace old new s) = false.
Proof.
  apply (str_replace_clears "t"%char (lit "o-br" ++ [nl] ++ lit " from")
           (lit "o-br from")); [free_of|free_of|].
  intros x. reflexivity.
Qed.

Lemma fix_script_files fs content :
  fs !! path = Some content ->
  files (main fs) = <[path := str_replace old new content]> fs.
Proof. intros H. unfold main. by rewrite H. Qed.

(** X17. After the script has run, the component holds no [to-br] at the end
    of a line followed by [ from] at the start of the next line; every other
    file is as it was. *)
Theorem fix_script_leaves_no_break fs content :
  fs !! path = Some content ->
  exists fixed,
    files (main fs) !! path = Some fixed
    /\ contains old fixed = false
    /\ forall p, p <> path -> files (main fs) !! p = fs !! p.
Proof.
  intros H. exists (str_replace old new content). rewrite (fix_script_files _ _ H).
  split; [by rewrite lookup_insert_eq|]. split; [apply fix_script_clears|].
  intros p Hp. by rewrite lookup_insert_ne.
Qed.

Lemma fix_script_leaves_no_break_witness :
  exists fixed,
    files (main {[ path := lit "bg-gradient-to-br" ++ [nl] ++ lit " from-x" ]})
      !! path = Some fixed
    /\ contains old fixed = false.
Proof.
  destruct (fix_script_leaves_no_break
              {[ path := lit "bg-gradient-to-br" ++ [nl] ++ lit " from-x" ]}
              (lit "bg-gradient-to-br" ++ [nl] ++ lit " from-x"))
    as (fixed & H1 & H2 & _).
  - apply lookup_singleton_eq.
  - exists fixed. by split.
Defined.

(** X18. A second run of the script changes nothing. *)
Theorem fix_script_twice fs : files (main (files (main fs))) = files (main fs).
Proof.
  destruct (fs !! path) as [content|] eqn:E.
  - rewrite (fix_script_files fs content E).
    rewrite (fix_script_files _ (str_replace old new content))
      by apply lookup_insert_eq.
    rewrite str_replace_absent; [|done|apply fix_script_clears].
    by rewrite insert_insert_eq.
  - unfold main at 2. rewrite E. simpl. unfold main. by rewrite E.
Qed.

(** X19. The script only ever deletes newlines: without its newlines the text
    written is the text read, it is never longer, and a text without the
    broken class list is written back as it is. *)
Theorem fix_script_only_deletes_newlines fs content :
  fs !! path = Some content ->
  exists fixed,
    files (main fs) !! path = Some fixed
    /\ List.filter (fun c => negb (Ascii.eqb c nl)) fixed
       = List.filter (fun c => negb (Ascii.eqb c nl)) content
    /\ length fixed <= length content
    /\ (contains old content = false -> fixed = content /\ files (main fs) = fs).
Proof.
  intros H. exists (str_replace old new content). rewrite (fix_script_files _ _ H).
  split; [by rewrite lookup_insert_eq|]. split; [by apply str_replace_filter|].
  split; [apply str_replace_length; [done|simpl; lia]|].
  intros Ha. rewrite str_replace_absent by done. split; [done|].
  by apply insert_id.
Qed.

Lemma fix_script_only_deletes_newlines_witness :
  exists fixed,
    files (main {[ path := lit "to-br" ++ [nl] ++ lit " from" ]}) !! path
    = Some fixed
    /\ length fixed <= 11.
Proof.
  destruct (fix_script_only_deletes_newlines
              {[ path := lit "to-br" ++ [nl] ++ lit " from" ]}
              (lit "to-br" ++ [nl] ++ lit " from"))
    as (fixed & H1 & _ & H2 & _).
  - apply lookup_singleton_eq.
  - exists fixed. by split.
Defined.
End FixScriptFacts.
